(** * spellbook: the RV32I conformance harness and its Makefile

    A shallow embedding of

    - [test_rv32i.c]: the assertion ledger (the three [volatile uint32_t]
      globals and the [ASSERT] macro), the nine test groups and [main];
    - [Makefile]: the toolchain detection ([TOOLCHAIN_PREFIX]), the
      architecture string ([FULL_ARCH]) and the coverage check
      ([verify-instructions]).

    Machine integers are [Z] with the wrap-around written out, text is
    [string], the ledger is a record handed from one [ASSERT] to the next,
    and a shell recipe is a function from what it reads to what it prints and
    the status it exits with. *)

From Stdlib Require Import ZArith List String Ascii Bool Lia Permutation.
From Stdlib Require Import DecimalString.
From Equations Require Import Equations.
Import ListNotations.

Local Open Scope string_scope.
Local Open Scope list_scope.
Local Open Scope Z_scope.

(** ** 32-bit machine arithmetic *)

Module Word.

Definition modulus : Z := 2 ^ 32.

(** Conversion to [uint32_t]: reduction modulo 2^32. *)
Definition u32 (x : Z) : Z := x mod modulus.

(** Conversion to [int32_t]: the two's-complement reading of the low 32
    bits. *)
Definition s32 (x : Z) : Z := (x + 2 ^ 31) mod modulus - 2 ^ 31.

(** Conversions to the narrow types of [test_memory] and of the byte and
    halfword instructions. *)
Definition u8 (x : Z) : Z := x mod 2 ^ 8.
Definition s8 (x : Z) : Z := (x + 2 ^ 7) mod 2 ^ 8 - 2 ^ 7.
Definition u16 (x : Z) : Z := x mod 2 ^ 16.
Definition s16 (x : Z) : Z := (x + 2 ^ 15) mod 2 ^ 16 - 2 ^ 15.

(** The C operators on [int32_t] operands, as the RV32I target computes
    them: the result is the low 32 bits, read as signed. *)
Definition add32 (a b : Z) : Z := s32 (a + b).
Definition sub32 (a b : Z) : Z := s32 (a - b).
Definition and32 (a b : Z) : Z := s32 (Z.land a b).
Definition or32 (a b : Z) : Z := s32 (Z.lor a b).
Definition xor32 (a b : Z) : Z := s32 (Z.lxor a b).
Definition shl32 (a n : Z) : Z := s32 (Z.shiftl a n).

(** [>>] on an [int32_t] is the arithmetic shift, on a [uint32_t] the
    logical one; on [Z] both are [Z.shiftr] of the value as it is read. *)
Definition sar32 (a n : Z) : Z := s32 (Z.shiftr a n).
Definition shr32u (a n : Z) : Z := u32 (Z.shiftr (u32 a) n).
Definition sub32u (a b : Z) : Z := u32 (a - b).

(** [c ? 1 : 0] *)
Definition cond01 (c : bool) : Z := if c then 1 else 0.

(** Distance of a loop counter to its bound: the measure of the loops. *)
Definition distance (i bound : Z) : nat := Z.to_nat (bound - i).

Lemma s32_succ_gt (i bound : Z) :
  i < bound -> bound < 2 ^ 31 -> i < s32 (i + 1).
Proof.
  intros Hi Hb. unfold s32, modulus.
  destruct (Z_lt_le_dec i (- 2 ^ 31)) as [Hlo|Hlo].
  - pose proof (Z.mod_pos_bound (i + 1 + 2 ^ 31) (2 ^ 32)). lia.
  - rewrite Z.mod_small; lia.
Qed.

Lemma s32_pred_lt (n : Z) : 0 < n -> s32 (n - 1) < n.
Proof.
  intros Hn. unfold s32, modulus.
  destruct (Z_lt_le_dec (2 ^ 31) n) as [Hhi|Hhi].
  - pose proof (Z.mod_pos_bound (n - 1 + 2 ^ 31) (2 ^ 32)). lia.
  - rewrite Z.mod_small; lia.
Qed.

Lemma distance_succ (i : Z) :
  i < 10 -> (distance (add32 i 1) 10 < distance i 10)%nat.
Proof.
  intros Hi. pose proof (s32_succ_gt i 10 Hi). unfold distance, add32. lia.
Qed.

Lemma to_nat_pred (n : Z) :
  0 < n -> (Z.to_nat (sub32 n 1) < Z.to_nat n)%nat.
Proof.
  intros Hn. pose proof (s32_pred_lt n Hn). unfold sub32. lia.
Qed.

End Word.

(** ** The RV32I instructions that [test_rv32i.c] emits through inline asm

    Registers hold 32-bit values, read here as unsigned.  Memory is the byte
    array the operand points into, addressed by the byte offset. *)

Module Rv32i.

Import Word.

Fixpoint array_set (a : list Z) (i : nat) (v : Z) : list Z :=
  match a, i with
  | [], _ => []
  | _ :: t, O => v :: t
  | h :: t, S j => h :: array_set t j v
  end.

Definition array_get (a : list Z) (i : nat) : Z := nth i a 0.

(** [lb rd, 0(rs1)]: the byte, sign-extended. *)
Definition lb (mem : list Z) (addr : nat) : Z :=
  u32 (s8 (array_get mem addr)).

(** [lh rd, 0(rs1)]: two bytes, little-endian, sign-extended. *)
Definition lh (mem : list Z) (addr : nat) : Z :=
  u32 (s16 (array_get mem addr + 2 ^ 8 * array_get mem (S addr))).

(** [sb rs2, off(rs1)]: the low byte of [rs2]. *)
Definition sb (mem : list Z) (addr : nat) (rs2 : Z) : list Z :=
  array_set mem addr (u8 rs2).

(** [sh rs2, off(rs1)]: the low halfword of [rs2], little-endian. *)
Definition sh (mem : list Z) (addr : nat) (rs2 : Z) : list Z :=
  array_set (array_set mem addr (u8 rs2)) (S addr) (u8 (Z.shiftr rs2 8)).

(** The register-form shifts use the low five bits of [rs2]. *)
Definition srl (rs1 rs2 : Z) : Z := u32 (Z.shiftr (u32 rs1) (Z.land rs2 31)).
Definition sll (rs1 rs2 : Z) : Z := u32 (Z.shiftl rs1 (Z.land rs2 31)).
Definition sra (rs1 rs2 : Z) : Z := u32 (Z.shiftr (s32 rs1) (Z.land rs2 31)).

(** [auipc rd, imm] executed at address [pc]. *)
Definition auipc (pc imm : Z) : Z := u32 (pc + Z.shiftl imm 12).

End Rv32i.

(** ** The assertion ledger of [test_rv32i.c] *)

Module Ledger.

Import Word.

(** The three globals
<<
    volatile uint32_t test_result = 0;
    volatile uint32_t test_passed = 0;
    volatile uint32_t test_failed = 0;
>>
    The harness is single-threaded and nothing else writes them, so a read
    returns the value last written. *)
Record ledger : Type := mkLedger {
  test_result : Z;
  test_passed : Z;
  test_failed : Z
}.

(** The static initialisers, which are also the three assignments at the top
    of [main]. *)
Definition reset : ledger :=
  {| test_result := 0; test_passed := 0; test_failed := 0 |}.

(** The macro
<<
    #define ASSERT(condition, test_name) \
        do { if (condition) { test_passed++; } \
             else { test_failed++; test_result = 1; } } while(0)
>>
    [++] on a [uint32_t] wraps modulo 2^32.  The expansion does not use
    [test_name], and has no way out but falling through.  The basic and the
    full version of [test_rv32i.c] define the macro with the same text. *)
Definition ASSERT (condition : bool) (test_name : string) (g : ledger)
  : ledger :=
  if condition then
    {| test_result := test_result g;
       test_passed := u32 (test_passed g + 1);
       test_failed := test_failed g |}
  else
    {| test_result := 1;
       test_passed := test_passed g;
       test_failed := u32 (test_failed g + 1) |}.

(** An assertion as a test group hands it to the ledger: the observed
    outcome and the label. *)
Definition Assertion : Type := (bool * string)%type.

Definition outcome (a : Assertion) : bool := fst a.
Definition label (a : Assertion) : string := snd a.

Definition record (g : ledger) (a : Assertion) : ledger :=
  ASSERT (outcome a) (label a) g.

(** A sequence of [ASSERT]s in program order. *)
Definition record_all (l : list Assertion) (g : ledger) : ledger :=
  fold_left record l g.

(** How many assertions of a sequence have the given outcome. *)
Definition count_outcome (b : bool) (l : list Assertion) : nat :=
  List.length (filter (fun a => Bool.eqb (outcome a) b) l).

Definition passes (l : list Assertion) : nat := count_outcome true l.
Definition failures (l : list Assertion) : nat := count_outcome false l.

(** The same macro expanded over a journal instead of the counters: it
    appends what it was called with.  Running a group over the journal gives
    the assertions the group makes, in order. *)
Definition journal (condition : bool) (test_name : string)
  (l : list Assertion) : list Assertion :=
  l ++ [(condition, test_name)].

(** And over a plain counter of expansions. *)
Definition tally (condition : bool) (test_name : string) (n : nat) : nat :=
  S n.

(** A processor under test need not compute what the program expects:
    [observe c name] is what it makes of the condition [c] of the assertion
    [name].  [ASSERT_observed] is the macro on such a processor, [observed]
    the journal it leaves where a correct one leaves [l]. *)
Definition ASSERT_observed (observe : bool -> string -> bool)
  (condition : bool) (test_name : string) (g : ledger) : ledger :=
  ASSERT (observe condition test_name) test_name g.

Definition observed (observe : bool -> string -> bool)
  (l : list Assertion) : list Assertion :=
  map (fun a => (observe (outcome a) (label a), label a)) l.

(** A piece of the harness that records [n] assertions, all of them passing:
    from any ledger it adds [n] to [test_passed] (modulo 2^32) and leaves the
    other two globals alone. *)
Definition adds_passes (group : ledger -> ledger) (n : Z) : Prop :=
  forall g : ledger,
    test_passed (group g) = u32 (test_passed g + n)
    /\ test_failed (group g) = test_failed g
    /\ test_result (group g) = test_result g.

End Ledger.

(** ** The test groups and [main] of [test_rv32i.c]

    The groups never read the three globals: they only expand [ASSERT].
    They are written once, over whatever the macro expands to
    ([ASSERT] below is the macro), and [main] runs them over the ledger. *)

Module Tests.

Import Word Rv32i.

(** [for (i = 0; i < 10; i++) { sum += i; }], from the state after the
    initialisation; returns the final [(i, sum)]. *)
#[local] Obligation Tactic := idtac.
Equations for_loop (i sum : Z) : Z * Z by wf (distance i 10) lt :=
  for_loop i sum with Z_lt_dec i 10 => {
    | left _ => for_loop (add32 i 1) (add32 sum i);
    | right _ => (i, sum) }.
Next Obligation. intros. now apply distance_succ. Qed.

(** [while (i < 10) { sum += i; i++; }] *)
Equations while_loop (i sum : Z) : Z * Z by wf (distance i 10) lt :=
  while_loop i sum with Z_lt_dec i 10 => {
    | left _ => while_loop (add32 i 1) (add32 sum i);
    | right _ => (i, sum) }.
Next Obligation. intros. now apply distance_succ. Qed.

(** [int32_t add_function(int32_t a, int32_t b) { return a + b; }] *)
Definition add_function (a b : Z) : Z := add32 a b.

(**
<<
    int32_t __attribute__((noinline)) recursive_sum(int32_t n) {
        if (n <= 0) { return 0; }
        volatile int32_t rest = recursive_sum(n - 1);
        return n + rest;
    }
>>  The addition is kept folded while the equations of the function are
    generated. *)
Opaque add32.
Equations recursive_sum (n : Z) : Z by wf (Z.to_nat n) lt :=
  recursive_sum n with Z_le_dec n 0 => {
    | left _ => 0;
    | right _ =>
        let rest := recursive_sum (sub32 n 1) in
        add32 n rest }.
Next Obligation. intros. apply to_nat_pred. lia. Qed.
Transparent add32.

(** [static volatile int32_t jump_callback_flag], passed through
    [jump_target], which sets it. *)
Definition jump_target (jump_callback_flag : Z) : Z := 1.

Section Groups.

Context {S : Type}.
Variable ASSERT : bool -> string -> S -> S.

Definition test_arithmetic (g : S) : S :=
  let a := 10 in
  let b := 5 in
  (* ADD *)
  let result := add32 a b in
  let g := ASSERT (result =? 15) "ADD" g in
  (* SUB *)
  let result := sub32 a b in
  let g := ASSERT (result =? 5) "SUB" g in
  (* AND *)
  let result := and32 a b in
  let g := ASSERT (result =? 0) "AND" g in
  (* OR *)
  let result := or32 a b in
  let g := ASSERT (result =? 15) "OR" g in
  (* XOR *)
  let result := xor32 a b in
  let g := ASSERT (result =? 15) "XOR" g in
  (* result = a << 2 *)
  let result := shl32 a 2 in
  let g := ASSERT (result =? 40) "SLLI" g in
  (* result = (uint32_t)a >> 2 *)
  let result := s32 (shr32u a 2) in
  let g := ASSERT (result =? 2) "SRLI" g in
  (* result = (uint32_t)(a << 3) >> shift_amt *)
  let shift_amt := 3 in
  let result := s32 (shr32u (shl32 a 3) shift_amt) in
  let g := ASSERT (result =? 10) "SRL" g in
  (* result = neg >> 2 *)
  let neg := -16 in
  let result := sar32 neg 2 in
  let g := ASSERT (result =? -4) "SRAI" g in
  (* set less than *)
  let result := cond01 (a <? b) in
  let g := ASSERT (result =? 0) "SLT" g in
  let result := cond01 (b <? a) in
  let g := ASSERT (result =? 1) "SLT" g in
  (* set less than unsigned *)
  let ua := 0xFFFFFFFF in
  let ub := 5 in
  let result := cond01 (ua <? ub) in
  let g := ASSERT (result =? 0) "SLTU" g in
  g.

Definition test_memory (g : S) : S :=
  let array := [0; 1; 2; 3; 4; 5; 6; 7] in
  (* load word *)
  let value := array_get array 3 in
  let g := ASSERT (value =? 3) "LW" g in
  (* store word *)
  let array := array_set array 0 (u32 42) in
  let g := ASSERT (array_get array 0 =? 42) "SW" g in
  (* int8_t byte_array[4] *)
  let byte_array := [-1; 0; 127; -128] in
  let byte_val := s32 (array_get byte_array 0) in
  let g := ASSERT (byte_val =? -1) "LB sign extend" g in
  let byte_val := s32 (u8 (array_get byte_array 0)) in
  let g := ASSERT (byte_val =? 255) "LBU zero extend" g in
  (* int16_t half_array[4] *)
  let half_array := [-1; 0; 32767; -32768] in
  let half_val := s32 (array_get half_array 0) in
  let g := ASSERT (half_val =? -1) "LH sign extend" g in
  let half_val := s32 (u16 (array_get half_array 0)) in
  let g := ASSERT (half_val =? 65535) "LHU zero extend" g in
  g.

Definition test_explicit_instructions (g : S) : S :=
  let byte_buf := [0x12; 0x34; 0x56; 0x78; 0x9a; 0xbc; 0xde; 0xff] in
  (* lb %0, 0(%1) with %1 = &byte_buf[4] *)
  let val := s32 (lb byte_buf 4) in
  let g := ASSERT (val =? s32 (s8 0x9a)) "LB" g in
  (* lh %0, 0(%1) with %1 = byte_buf *)
  let byte_buf := array_set byte_buf 0 (u8 0xff) in
  let byte_buf := array_set byte_buf 1 (u8 0xff) in
  let val := s32 (lh byte_buf 0) in
  let g := ASSERT (val =? -1) "LH" g in
  (* sb %0, 2(%1) *)
  let byte_buf := sb byte_buf 2 (u32 0xAB) in
  let g := ASSERT (array_get byte_buf 2 =? 0xAB) "SB" g in
  (* sh %0, 4(%1) *)
  let byte_buf := sh byte_buf 4 (u32 0x1234) in
  let g :=
    ASSERT ((array_get byte_buf 4 =? 0x34) && (array_get byte_buf 5 =? 0x12))
      "SH" g in
  (* srl %0, %1, %2 *)
  let shift_result := srl (u32 0x80000000) (u32 4) in
  let g := ASSERT (shift_result =? 0x08000000) "SRL" g in
  (* sll %0, %1, %2 *)
  let shift_result := sll (u32 1) (u32 5) in
  let g := ASSERT (shift_result =? 32) "SLL" g in
  (* sra %0, %1, %2 *)
  let shift_result := sra (u32 (s32 (-64))) (u32 3) in
  let g := ASSERT (shift_result =? u32 (s32 (-8))) "SRA" g in
  g.

Definition test_branches (g : S) : S :=
  let a := 10 in
  let b := 5 in
  let count := 0 in
  (* BEQ *)
  let count := if a =? a then add32 count 1 else count in
  let g := ASSERT (count =? 1) "BEQ" g in
  (* BNE *)
  let count := if negb (a =? b) then add32 count 1 else count in
  let g := ASSERT (count =? 2) "BNE" g in
  (* BLT *)
  let count := if b <? a then add32 count 1 else count in
  let g := ASSERT (count =? 3) "BLT" g in
  (* BGE *)
  let count := if a >=? b then add32 count 1 else count in
  let g := ASSERT (count =? 4) "BGE" g in
  (* BLTU *)
  let ua := 5 in
  let ub := 10 in
  let count := if ua <? ub then add32 count 1 else count in
  let g := ASSERT (count =? 5) "BLTU" g in
  (* BGEU *)
  let count := if ub >=? ua then add32 count 1 else count in
  let g := ASSERT (count =? 6) "BGEU" g in
  g.

Definition test_loops (g : S) : S :=
  let sum := 0 in
  (* for (i = 0; i < 10; i++) *)
  let '(i, sum) := for_loop 0 sum in
  let g := ASSERT (sum =? 45) "for loop" g in
  (* while (i < 10) *)
  let sum := 0 in
  let i := 0 in
  let '(i, sum) := while_loop i sum in
  let g := ASSERT (sum =? 45) "while loop" g in
  g.

Definition test_functions (g : S) : S :=
  let result := add_function 7 8 in
  let g := ASSERT (result =? 15) "function call" g in
  let result := recursive_sum 10 in
  let g := ASSERT (result =? 55) "recursive function" g in
  g.

Definition test_immediates (g : S) : S :=
  let a := 100 in
  (* ADDI *)
  let result := add32 a 50 in
  let g := ASSERT (result =? 150) "ADDI" g in
  (* ANDI *)
  let result := and32 a 0x0F in
  let g := ASSERT (result =? 4) "ANDI" g in
  (* ORI *)
  let result := or32 a 0xF0 in
  let g := ASSERT (result =? 0xF4) "ORI" g in
  (* XORI *)
  let result := xor32 a 0xFF in
  let g := ASSERT (result =? 0x9B) "XORI" g in
  (* SLTI *)
  let result := cond01 (a <? 200) in
  let g := ASSERT (result =? 1) "SLTI" g in
  let result := cond01 (a <? 50) in
  let g := ASSERT (result =? 0) "SLTI" g in
  (* SLTIU *)
  let ua := 100 in
  let result := cond01 (ua <? 200) in
  let g := ASSERT (result =? 1) "SLTIU" g in
  g.

(** [pc] is the address the linker gives the first of the two consecutive
    [auipc] instructions; the second one sits four bytes further. *)
Definition test_upper_immediates (pc : Z) (g : S) : S :=
  (* LUI *)
  let value := u32 0x12345000 in
  let g := ASSERT (shr32u value 12 =? 0x12345) "LUI" g in
  let value := u32 0xABCD0000 in
  let g := ASSERT (shr32u value 16 =? 0xABCD) "LUI large" g in
  (* auipc %0, 0 ; auipc %1, 0 *)
  let pc1 := auipc pc 0 in
  let pc2 := auipc (pc + 4) 0 in
  let g := ASSERT (sub32u pc2 pc1 =? 4) "AUIPC" g in
  g.

Definition test_jumps (g : S) : S :=
  let jump_callback_flag := 0 in
  (* JAL: jump_target() *)
  let jump_callback_flag := jump_target jump_callback_flag in
  let g := ASSERT (jump_callback_flag =? 1) "JAL" g in
  (* JALR: fn = jump_target; fn() *)
  let jump_callback_flag := 0 in
  let fn := jump_target in
  let jump_callback_flag := fn jump_callback_flag in
  let g := ASSERT (jump_callback_flag =? 1) "JALR" g in
  g.

(** The nine calls of [main], in its order. *)
Definition run_all_tests (pc : Z) (g : S) : S :=
  let g := test_arithmetic g in
  let g := test_memory g in
  let g := test_explicit_instructions g in
  let g := test_branches g in
  let g := test_loops g in
  let g := test_functions g in
  let g := test_immediates g in
  let g := test_upper_immediates pc g in
  let g := test_jumps g in
  g.

(** The groups [main] calls after [test_branches]. *)
Definition groups_after_branches (pc : Z) : list (S -> S) :=
  [test_loops; test_functions; test_immediates; test_upper_immediates pc;
   test_jumps].

(** [test_branches] with its last assertion inverted on purpose: it asserts
    [count == 99] where the count is 6.  This is not code of the repository
    but the mutant the fault-injection scenario speaks of. *)
Definition test_branches_inverted (g : S) : S :=
  let a := 10 in
  let b := 5 in
  let count := 0 in
  let count := if a =? a then add32 count 1 else count in
  let g := ASSERT (count =? 1) "BEQ" g in
  let count := if negb (a =? b) then add32 count 1 else count in
  let g := ASSERT (count =? 2) "BNE" g in
  let count := if b <? a then add32 count 1 else count in
  let g := ASSERT (count =? 3) "BLT" g in
  let count := if a >=? b then add32 count 1 else count in
  let g := ASSERT (count =? 4) "BGE" g in
  let ua := 5 in
  let ub := 10 in
  let count := if ua <? ub then add32 count 1 else count in
  let g := ASSERT (count =? 5) "BLTU" g in
  let count := if ub >=? ua then add32 count 1 else count in
  let g := ASSERT (count =? 99) "BGEU" g in
  g.

(** [main]'s nine calls with the mutant in place of [test_branches]. *)
Definition run_all_tests_inverted (pc : Z) (g : S) : S :=
  let g := test_arithmetic g in
  let g := test_memory g in
  let g := test_explicit_instructions g in
  let g := test_branches_inverted g in
  let g := test_loops g in
  let g := test_functions g in
  let g := test_immediates g in
  let g := test_upper_immediates pc g in
  let g := test_jumps g in
  g.

End Groups.

(** [main]: reset the three globals, run the groups, return [test_result].
    [main_ledger] is the ledger at the [return]. *)
Definition main_ledger (pc : Z) : Ledger.ledger :=
  let g := Ledger.reset in
  run_all_tests Ledger.ASSERT pc g.

Definition main (pc : Z) : Z := Ledger.test_result (main_ledger pc).

(** The assertions of a run of [main], in the order they are recorded. *)
Definition main_journal (pc : Z) : list Ledger.Assertion :=
  run_all_tests Ledger.journal pc [].

(** The number of [ASSERT] expansions the nine groups contain. *)
Definition static_assertions : nat :=
  run_all_tests Ledger.tally 0 O.

(** The run of the fault-injection scenario. *)
Definition main_ledger_inverted (pc : Z) : Ledger.ledger :=
  let g := Ledger.reset in
  run_all_tests_inverted Ledger.ASSERT pc g.

End Tests.

(** ** The Makefile *)

Module Make.

(** *** Toolchain detection

    What the probes of the recipe see of the build host: [command_v x] is the
    status of [command -v x >/dev/null 2>&1], [test_f x] that of [[ -f x ]]. *)
Record Host : Type := mkHost {
  command_v : string -> bool;
  test_f : string -> bool
}.

(** The [$(shell if ...; elif ...; else ...; fi)] of the assignment. *)
Definition detect (h : Host) : string :=
  if command_v h "riscv64-unknown-elf-gcc" then "riscv64-unknown-elf-"
  else if command_v h "riscv32-unknown-elf-gcc" then "riscv32-unknown-elf-"
  else if command_v h "riscv64-linux-gnu-gcc" then "riscv64-linux-gnu-"
  else if command_v h "riscv32-linux-gnu-gcc" then "riscv32-linux-gnu-"
  else if test_f h "/opt/homebrew/bin/riscv64-unknown-elf-gcc"
       then "riscv64-unknown-elf-"
  else if test_f h "/usr/local/bin/riscv64-unknown-elf-gcc"
       then "riscv64-unknown-elf-"
  else "riscv64-unknown-elf-".

(** [TOOLCHAIN_PREFIX ?= $(shell ...)]: [?=] assigns only when the variable
    has no definition yet; [override] is the definition the caller gave on
    the command line or in the environment, if any. *)
Definition TOOLCHAIN_PREFIX (override : option string) (h : Host) : string :=
  match override with
  | Some prefix => prefix
  | None => detect h
  end.

(** [CC = $(TOOLCHAIN_PREFIX)gcc] *)
Definition CC (override : option string) (h : Host) : string :=
  (TOOLCHAIN_PREFIX override h ++ "gcc")%string.

(** [CHECK_TOOLCHAIN], the recipe of [check-toolchain], which [all] runs
    first: [true] when it lets the build go on, [false] when it prints the
    error and does [exit 1]. *)
Definition CHECK_TOOLCHAIN (override : option string) (h : Host) : bool :=
  let cc := CC override h in
  negb (negb (command_v h cc)
        && negb (test_f h ("/opt/homebrew/bin/" ++ cc)%string)
        && negb (test_f h ("/usr/local/bin/" ++ cc)%string)).

(** The detection policy in the words of the specification: the candidate
    prefixes in their order, the installation directories in theirs, each
    directory probed for the compilers of the same candidates, the first
    match deciding the prefix, and a fixed fallback. *)
Definition candidate_prefixes : list string :=
  ["riscv64-unknown-elf-"; "riscv32-unknown-elf-"; "riscv64-linux-gnu-";
   "riscv32-linux-gnu-"].

Definition install_dirs : list string :=
  ["/opt/homebrew/bin"; "/usr/local/bin"].

Definition fallback_prefix : string := "riscv64-unknown-elf-".

Definition on_search_path (h : Host) (prefix : string) : bool :=
  command_v h (prefix ++ "gcc")%string.

Definition in_install_dir (h : Host) (dir prefix : string) : bool :=
  test_f h (dir ++ "/" ++ prefix ++ "gcc")%string.

Definition first_installed (h : Host) : option string :=
  hd_error
    (flat_map (fun dir => filter (in_install_dir h dir) candidate_prefixes)
       install_dirs).

Definition detect_as_specified (override : option string) (h : Host)
  : string :=
  match override with
  | Some prefix => prefix
  | None =>
      match find (on_search_path h) candidate_prefixes with
      | Some prefix => prefix
      | None =>
          match first_installed h with
          | Some prefix => prefix
          | None => fallback_prefix
          end
      end
  end.

(** *** The architecture string
<<
    ifneq ($(ISA_EXTENSIONS),)
        FULL_ARCH = $(ARCH)$(ISA_EXTENSIONS)
    else
        FULL_ARCH = $(ARCH)
    endif
>> *)
Definition FULL_ARCH (ARCH ISA_EXTENSIONS : string) : string :=
  if negb (String.eqb ISA_EXTENSIONS "") then (ARCH ++ ISA_EXTENSIONS)%string
  else ARCH.

(** The extensions given one by one and written next to each other, as in
    [ISA_EXTENSIONS=mc]. *)
Definition extension_string (extensions : list string) : string :=
  String.concat "" extensions.

(** *** The coverage check: [grep -qE "\b$insn\b" $(DUMP)]

    A word constituent of the C (POSIX) locale: an ASCII letter, an ASCII
    digit or the underscore.  This is the class [grep] uses when the recipe
    runs under [LC_ALL=C], and the class the statements below mean by a
    "word" or a "token".  The recipe itself sets no locale: what [grep] does
    in the locale of the caller is [grep_in] further down, with the word
    class of that locale as a parameter. *)
Definition is_word_char (c : ascii) : bool :=
  let n := N_of_ascii c in
  (((48 <=? n) && (n <=? 57)) || ((65 <=? n) && (n <=? 90))
   || ((97 <=? n) && (n <=? 122)) || (n =? 95))%N.

Definition starts_with_word (s : string) : bool :=
  match s with
  | EmptyString => false
  | String c _ => is_word_char c
  end.

(** Whether the text read so far ends in a word constituent; [prev] says so
    for what came before [s]. *)
Fixpoint ends_in_word (prev : bool) (s : string) : bool :=
  match s with
  | EmptyString => prev
  | String c s' => ends_in_word (is_word_char c) s'
  end.

(** [drop_prefix p s] is what follows [p] in [s] when [s] starts with [p]. *)
Fixpoint drop_prefix (p s : string) : option string :=
  match p, s with
  | EmptyString, _ => Some s
  | String a p', String b s' =>
      if Ascii.eqb a b then drop_prefix p' s' else None
  | String _ _, EmptyString => None
  end.

(** [\b] matches the empty string where exactly one of the two neighbouring
    characters is a word constituent; the ends of the line count as
    non-word. *)
Definition word_boundary (before after : bool) : bool := xorb before after.

(** [\binsn\b] matched at the head of [line], [prev] telling whether the
    character before it is a word constituent.  [insn] is taken literally:
    the mnemonics contain no character that is special in a regular
    expression. *)
Definition match_here (prev : bool) (insn line : string) : bool :=
  match drop_prefix insn line with
  | Some rest =>
      word_boundary prev (starts_with_word line)
      && word_boundary (ends_in_word prev insn) (starts_with_word rest)
  | None => false
  end.

(** ... and at the head of [line] or anywhere further in it. *)
Fixpoint match_from (prev : bool) (insn line : string) : bool :=
  match_here prev insn line
  || match line with
     | EmptyString => false
     | String c line' => match_from (is_word_char c) insn line'
     end.

Definition line_matches (insn line : string) : bool :=
  match_from false insn line.

(** [grep -q] over the lines of the file: success as soon as one line
    matches. *)
Definition grep_qE_word (insn : string) (DUMP : list string) : bool :=
  existsb (line_matches insn) DUMP.

(** The instruction list of the [for] loop. *)
Definition RV32I_insns : list string :=
  ["lb"; "lh"; "lw"; "lbu"; "lhu"; "sb"; "sh"; "sw"; "add"; "addi"; "sub";
   "and"; "andi"; "or"; "ori"; "xor"; "xori";
   "sll"; "slli"; "srl"; "srli"; "sra"; "srai"; "slt"; "slti"; "sltu";
   "sltiu"; "lui"; "auipc"; "jal"; "jalr";
   "beq"; "bne"; "blt"; "bge"; "bltu"; "bgeu"].

(** The state of the shell while the recipe runs: the variable [missing] and
    what has been written to standard output, line by line.  The shell counts
    in a signed integer of at least 64 bits and the loop runs once per word
    of one command, so the counter cannot wrap; it is a plain [Z]. *)
Record shell : Type := mkShell {
  missing : Z;
  stdout : list string
}.

Definition echo (line : string) (sh : shell) : shell :=
  {| missing := missing sh; stdout := stdout sh ++ [line] |}.

Definition decimal (n : Z) : string := NilZero.string_of_int (Z.to_int n).

(**
<<
    if ! grep -qE "\b$$insn\b" $(DUMP); then
      echo "  MISSING: $$insn"; missing=$$((missing+1));
    fi
>> *)
Definition loop_body (DUMP : list string) (sh : shell) (insn : string)
  : shell :=
  if negb (grep_qE_word insn DUMP) then
    let sh := echo ("  MISSING: " ++ insn)%string sh in
    {| missing := missing sh + 1; stdout := stdout sh |}
  else sh.

(** The two recipe lines of [verify-instructions] over an instruction list
    [insns]: the output and the exit status of the shell.  [make] itself
    exits with 0 when the shell does and with a non-zero status when it does
    not. *)
Definition verify_recipe (insns : list string) (DUMP : list string)
  : list string * Z :=
  let sh := echo "Checking RV32I instruction coverage..."
              {| missing := 0; stdout := [] |} in
  let sh := {| missing := 0; stdout := stdout sh |} in
  let sh := fold_left (loop_body DUMP) insns sh in
  if missing sh =? 0 then
    (stdout (echo "  All RV32I instructions present in dump." sh), 0)
  else
    (stdout (echo ("  " ++ decimal (missing sh)
                   ++ " instruction(s) not found.")%string sh), 1).

Definition verify_instructions (DUMP : list string) : list string * Z :=
  verify_recipe RV32I_insns DUMP.

(** *** The coverage report read off the recipe

    [report_missing] are the mnemonics of the [MISSING:] lines in the order
    they were printed, [report_ok] is the exit status being zero. *)
Record CoverageReport : Type := mkReport {
  report_missing : list string;
  report_ok : bool
}.

Fixpoint reported (out : list string) : list string :=
  match out with
  | [] => []
  | line :: out' =>
      match drop_prefix "  MISSING: " line with
      | Some insn => insn :: reported out'
      | None => reported out'
      end
  end.

Definition verify (listing required : list string) : CoverageReport :=
  let '(out, status) := verify_recipe required listing in
  {| report_missing := reported out; report_ok := status =? 0 |}.

(** The required mnemonics for which [grep] fails, in the order of the
    list. *)
Definition absent (listing required : list string) : list string :=
  filter (fun insn => negb (grep_qE_word insn listing)) required.

Definition missing_line (insn : string) : string :=
  ("  MISSING: " ++ insn)%string.

(** *** What the specification calls a standalone token

    [insn] stands in [line] with no word constituent right before it and none
    right after it. *)
Definition standalone_token (insn line : string) : Prop :=
  exists pre post : string,
    line = (pre ++ insn ++ post)%string
    /\ ends_in_word false pre = false
    /\ starts_with_word post = false.

Definition present (insn : string) (listing : list string) : Prop :=
  exists line, In line listing /\ standalone_token insn line.

(** The words of a line: its maximal runs of word constituents, in order.
    [cur] is the run being read. *)
Definition flush (cur : string) : list string :=
  match cur with
  | EmptyString => []
  | String _ _ => [cur]
  end.

Fixpoint words_acc (cur : string) (s : string) : list string :=
  match s with
  | EmptyString => flush cur
  | String c s' =>
      if is_word_char c then words_acc (cur ++ String c "")%string s'
      else flush cur ++ words_acc "" s'
  end.

Definition words (line : string) : list string := words_acc "" line.

(** *** The recipe in the locale of the caller

    The Makefile does not set [LC_ALL], so [grep] classifies characters as
    the caller's locale does.  [word] is that classification, as a class of
    bytes: this is what a single-byte locale (C, ISO 8859) has.  Every locale
    agrees with the C locale on the ASCII characters ([posix_on_ascii]); on
    the other bytes nothing is assumed.  In a multi-byte locale (UTF-8) a
    character above 127 is several bytes and its class is not a class of
    bytes; there the model is that of [grep] on ASCII listings
    ([ascii_listing]), whose characters are all single bytes. *)
Definition ascii_char (c : ascii) : bool := (N_of_ascii c <? 128)%N.

Fixpoint ascii_only (s : string) : bool :=
  match s with
  | EmptyString => true
  | String c s' => ascii_char c && ascii_only s'
  end.

(** A listing all of whose lines are ASCII text, as [objdump -d] prints for
    a program whose symbols are ASCII. *)
Definition ascii_listing (DUMP : list string) : Prop :=
  forall line, In line DUMP -> ascii_only line = true.

Definition posix_on_ascii (word : ascii -> bool) : Prop :=
  forall c, ascii_char c = true -> word c = is_word_char c.

(** A locale in which every byte above 127 belongs to a letter. *)
Definition word_high_letters (c : ascii) : bool :=
  is_word_char c || negb (ascii_char c).

Section Locale.

Variable word : ascii -> bool.

Definition starts_with_word_in (s : string) : bool :=
  match s with
  | EmptyString => false
  | String c _ => word c
  end.

Fixpoint ends_in_word_in (prev : bool) (s : string) : bool :=
  match s with
  | EmptyString => prev
  | String c s' => ends_in_word_in (word c) s'
  end.

Definition match_here_in (prev : bool) (insn line : string) : bool :=
  match drop_prefix insn line with
  | Some rest =>
      word_boundary prev (starts_with_word_in line)
      && word_boundary (ends_in_word_in prev insn) (starts_with_word_in rest)
  | None => false
  end.

Fixpoint match_from_in (prev : bool) (insn line : string) : bool :=
  match_here_in prev insn line
  || match line with
     | EmptyString => false
     | String c line' => match_from_in (word c) insn line'
     end.

Definition line_matches_in (insn line : string) : bool :=
  match_from_in false insn line.

Definition grep_in (insn : string) (DUMP : list string) : bool :=
  existsb (line_matches_in insn) DUMP.

End Locale.

(** The two recipe lines over whatever [grep] answers. *)
Section Recipe.

Variable grep : string -> list string -> bool.

Definition loop_body_with (DUMP : list string) (sh : shell) (insn : string)
  : shell :=
  if negb (grep insn DUMP) then
    let sh := echo ("  MISSING: " ++ insn)%string sh in
    {| missing := missing sh + 1; stdout := stdout sh |}
  else sh.

Definition verify_recipe_with (insns : list string) (DUMP : list string)
  : list string * Z :=
  let sh := echo "Checking RV32I instruction coverage..."
              {| missing := 0; stdout := [] |} in
  let sh := {| missing := 0; stdout := stdout sh |} in
  let sh := fold_left (loop_body_with DUMP) insns sh in
  if missing sh =? 0 then
    (stdout (echo "  All RV32I instructions present in dump." sh), 0)
  else
    (stdout (echo ("  " ++ decimal (missing sh)
                   ++ " instruction(s) not found.")%string sh), 1).

Definition absent_with (listing required : list string) : list string :=
  filter (fun insn => negb (grep insn listing)) required.

End Recipe.

Definition verify_recipe_in (word : ascii -> bool)
  (insns DUMP : list string) : list string * Z :=
  verify_recipe_with (grep_in word) insns DUMP.

Definition verify_instructions_in (word : ascii -> bool)
  (DUMP : list string) : list string * Z :=
  verify_recipe_in word RV32I_insns DUMP.

Definition verify_in (word : ascii -> bool) (listing required : list string)
  : CoverageReport :=
  let '(out, status) := verify_recipe_in word required listing in
  {| report_missing := reported out; report_ok := status =? 0 |}.

(** The characters of the C locale's word class, written out. *)
Definition word_characters : string :=
  "ABCDEFGHIJKLMNOPQRSTUVWXYZabcdefghijklmnopqrstuvwxyz0123456789_".

(** A mnemonic: a non-empty string of word constituents. *)
Fixpoint word_only (s : string) : bool :=
  match s with
  | EmptyString => true
  | String c s' => is_word_char c && word_only s'
  end.

Definition mnemonic (s : string) : Prop :=
  s <> EmptyString /\ word_only s = true.

End Make.

(** ** The basic version of [test_rv32i.c]

    The groups [test_memory], [test_branches], [test_loops] and
    [test_immediates] have the same text in both versions and are taken from
    [Tests]; the others are written out here. *)

Module Basic.

Import Word Rv32i.

(**
<<
    int32_t recursive_sum(int32_t n) {
        if (n <= 0) { return 0; }
        return n + recursive_sum(n - 1);
    }
>> *)
#[local] Obligation Tactic := idtac.
Opaque add32.
Equations recursive_sum (n : Z) : Z by wf (Z.to_nat n) lt :=
  recursive_sum n with Z_le_dec n 0 => {
    | left _ => 0;
    | right _ => add32 n (recursive_sum (sub32 n 1)) }.
Next Obligation. intros. apply to_nat_pred. lia. Qed.
Transparent add32.

(** The nested function of [test_jumps]: it sets the local [called] of the
    enclosing function. *)
Definition test_jump_target (called : Z) : Z := 1.

Section Groups.

Context {S : Type}.
Variable ASSERT : bool -> string -> S -> S.

Definition test_arithmetic (g : S) : S :=
  let a := 10 in
  let b := 5 in
  (* ADD *)
  let result := add32 a b in
  let g := ASSERT (result =? 15) "ADD" g in
  (* SUB *)
  let result := sub32 a b in
  let g := ASSERT (result =? 5) "SUB" g in
  (* AND *)
  let result := and32 a b in
  let g := ASSERT (result =? 0) "AND" g in
  (* OR *)
  let result := or32 a b in
  let g := ASSERT (result =? 15) "OR" g in
  (* XOR *)
  let result := xor32 a b in
  let g := ASSERT (result =? 15) "XOR" g in
  (* result = a << 2 *)
  let result := shl32 a 2 in
  let g := ASSERT (result =? 40) "SLL" g in
  (* result = a >> 2, on the int32_t *)
  let result := sar32 a 2 in
  let g := ASSERT (result =? 2) "SRL" g in
  (* result = neg >> 2 *)
  let neg := -16 in
  let result := sar32 neg 2 in
  let g := ASSERT (result =? -4) "SRA" g in
  (* set less than *)
  let result := cond01 (a <? b) in
  let g := ASSERT (result =? 0) "SLT" g in
  let result := cond01 (b <? a) in
  let g := ASSERT (result =? 1) "SLT" g in
  (* set less than unsigned *)
  let ua := 0xFFFFFFFF in
  let ub := 5 in
  let result := cond01 (ua <? ub) in
  let g := ASSERT (result =? 0) "SLTU" g in
  g.

Definition test_functions (g : S) : S :=
  let result := Tests.add_function 7 8 in
  let g := ASSERT (result =? 15) "function call" g in
  let result := recursive_sum 10 in
  let g := ASSERT (result =? 55) "recursive function" g in
  g.

Definition test_upper_immediates (g : S) : S :=
  (* LUI *)
  let value := u32 0x12345000 in
  let g := ASSERT (shr32u value 12 =? 0x12345) "LUI" g in
  let value := u32 0xABCD0000 in
  let g := ASSERT (shr32u value 16 =? 0xABCD) "upper immediate" g in
  g.

Definition test_jumps (g : S) : S :=
  let called := 0 in
  let called := test_jump_target called in
  let g := ASSERT (called =? 1) "JAL/JALR" g in
  g.

(** The calls of [main]; the call of [test_memory] is commented out in the
    source. *)
Definition run_all_tests (g : S) : S :=
  let g := test_arithmetic g in
  (* test_memory(); *)
  let g := Tests.test_branches ASSERT g in
  let g := Tests.test_loops ASSERT g in
  let g := test_functions g in
  let g := Tests.test_immediates ASSERT g in
  let g := test_upper_immediates g in
  let g := test_jumps g in
  g.

End Groups.

Definition main_ledger : Ledger.ledger :=
  let g := Ledger.reset in
  run_all_tests Ledger.ASSERT g.

Definition main : Z := Ledger.test_result main_ledger.

Definition main_journal : list Ledger.Assertion :=
  run_all_tests Ledger.journal [].

End Basic.

(** ** [small.c] *)

Module Small.

Import Word.

Lemma to_nat_pred2 (n : Z) :
  1 < n -> (Z.to_nat (sub32 n 2) < Z.to_nat n)%nat.
Proof.
  intros Hn. unfold sub32, s32, modulus.
  destruct (Z_lt_le_dec (2 ^ 31 + 1) n) as [Hhi|Hhi].
  - pose proof (Z.mod_pos_bound (n - 2 + 2 ^ 31) (2 ^ 32)). lia.
  - rewrite Z.mod_small; lia.
Qed.

(**
<<
    int fib(int n) {
        if (n <= 1) { return n; }
        return fib(n - 1) + fib(n - 2);
    }
>>  [int] has 32 bits under the ilp32 ABI. *)
#[local] Obligation Tactic := idtac.
Opaque add32.
Equations fib (n : Z) : Z by wf (Z.to_nat n) lt :=
  fib n with Z_le_dec n 1 => {
    | left _ => n;
    | right _ => add32 (fib (sub32 n 1)) (fib (sub32 n 2)) }.
Next Obligation. intros. apply to_nat_pred. lia. Qed.
Next Obligation. intros. apply to_nat_pred2. lia. Qed.
Transparent add32.

(** The three globals [result_1], [result_2], [result_3] after [main], and
    what [main] returns. *)
Definition main : (Z * Z * Z) * Z :=
  let result_1 := u32 (fib 4) in
  let result_2 := u32 (fib 6) in
  let result_3 := u32 (fib 12) in
  ((result_1, result_2, result_3), 0).

(** The Fibonacci numbers, by the linear iteration on consecutive pairs. *)
Fixpoint fibonacci_pair (k : nat) : Z * Z :=
  match k with
  | O => (0, 1)
  | S k' => let '(a, b) := fibonacci_pair k' in (b, a + b)
  end.

Definition fibonacci (k : nat) : Z := fst (fibonacci_pair k).

End Small.

(** * Properties of the ledger and of the test run *)

Module LedgerFacts.

Import Word Rv32i Ledger Tests.

Lemma modulus_pos : 0 < modulus.
Proof. unfold modulus; lia. Qed.

Lemma u32_range (x : Z) : 0 <= u32 x < modulus.
Proof. unfold u32. apply Z.mod_pos_bound, modulus_pos. Qed.

Lemma u32_small (x : Z) : 0 <= x < modulus -> u32 x = x.
Proof. intros H. unfold u32. now apply Z.mod_small. Qed.

Lemma u32_add_l (x y : Z) : u32 (u32 x + y) = u32 (x + y).
Proof. unfold u32. apply Z.add_mod_idemp_l. pose proof modulus_pos; lia. Qed.

Lemma u32_modulus : u32 modulus = 0.
Proof. reflexivity. Qed.

(** *** Counting outcomes *)

Lemma count_outcome_cons (b : bool) (a : Assertion) (l : list Assertion) :
  count_outcome b (a :: l)
  = ((if Bool.eqb (outcome a) b then 1 else 0) + count_outcome b l)%nat.
Proof.
  unfold count_outcome. simpl. destruct (Bool.eqb (outcome a) b); reflexivity.
Qed.

Lemma count_outcome_app (b : bool) (l1 l2 : list Assertion) :
  count_outcome b (l1 ++ l2) = (count_outcome b l1 + count_outcome b l2)%nat.
Proof.
  unfold count_outcome. now rewrite filter_app, length_app.
Qed.

Lemma passes_failures_length (l : list Assertion) :
  (passes l + failures l = List.length l)%nat.
Proof.
  unfold passes, failures.
  induction l as [|a l IH]; [reflexivity|].
  rewrite !count_outcome_cons. simpl List.length.
  destruct (outcome a); simpl; lia.
Qed.

Lemma failures_zero_iff (l : list Assertion) :
  failures l = 0%nat <-> forall a, In a l -> outcome a = true.
Proof.
  unfold failures. induction l as [|a l IH].
  - split; [intros _ x []|reflexivity].
  - rewrite count_outcome_cons. split.
    + intros H x [->|Hx].
      * destruct (outcome x); [reflexivity|simpl in H; discriminate].
      * apply IH; [|exact Hx]. destruct (Bool.eqb (outcome a) false); simpl in H; lia.
    + intros H. rewrite (H a (or_introl eq_refl)). simpl.
      apply IH. intros x Hx. apply H. now right.
Qed.

Lemma failures_repeat_false (name : string) (n : nat) :
  failures (repeat (false, name) n) = n.
Proof.
  unfold failures. induction n as [|n IH]; [reflexivity|].
  simpl repeat. rewrite count_outcome_cons, IH. reflexivity.
Qed.

(** *** What a sequence of [ASSERT]s does to each global *)

Lemma record_all_app (l1 l2 : list Assertion) (g : ledger) :
  record_all (l1 ++ l2) g = record_all l2 (record_all l1 g).
Proof. unfold record_all. apply fold_left_app. Qed.

Lemma record_all_passed (l : list Assertion) : forall g : ledger,
  test_passed (record_all l g)
  = if (passes l =? 0)%nat then test_passed g
    else u32 (test_passed g + Z.of_nat (passes l)).
Proof.
  unfold passes.
  induction l as [|a l IH]; intros g; [reflexivity|].
  change (record_all (a :: l) g) with (record_all l (record g a)).
  rewrite IH, count_outcome_cons. unfold record, ASSERT.
  destruct (outcome a); simpl Bool.eqb; cbv iota; simpl test_passed.
  - destruct (Nat.eqb_spec (count_outcome true l) 0) as [->|Hne].
    + reflexivity.
    + replace (1 + count_outcome true l =? 0)%nat with false
        by (symmetry; apply Nat.eqb_neq; lia).
      rewrite u32_add_l. f_equal. lia.
  - reflexivity.
Qed.

Lemma record_all_failed (l : list Assertion) : forall g : ledger,
  test_failed (record_all l g)
  = if (failures l =? 0)%nat then test_failed g
    else u32 (test_failed g + Z.of_nat (failures l)).
Proof.
  unfold failures.
  induction l as [|a l IH]; intros g; [reflexivity|].
  change (record_all (a :: l) g) with (record_all l (record g a)).
  rewrite IH, count_outcome_cons. unfold record, ASSERT.
  destruct (outcome a); simpl Bool.eqb; cbv iota; simpl test_failed.
  - reflexivity.
  - destruct (Nat.eqb_spec (count_outcome false l) 0) as [->|Hne].
    + reflexivity.
    + replace (1 + count_outcome false l =? 0)%nat with false
        by (symmetry; apply Nat.eqb_neq; lia).
      rewrite u32_add_l. f_equal. lia.
Qed.

Lemma record_all_result (l : list Assertion) : forall g : ledger,
  test_result (record_all l g)
  = if (failures l =? 0)%nat then test_result g else 1.
Proof.
  unfold failures.
  induction l as [|a l IH]; intros g; [reflexivity|].
  change (record_all (a :: l) g) with (record_all l (record g a)).
  rewrite IH, count_outcome_cons. unfold record, ASSERT.
  destruct (outcome a); simpl Bool.eqb; cbv iota; simpl test_result.
  - reflexivity.
  - destruct (count_outcome false l =? 0)%nat; reflexivity.
Qed.

(** From the reset ledger the three globals are the two counts modulo 2^32
    and the sticky flag. *)
Lemma run_passed (l : list Assertion) :
  test_passed (record_all l reset) = u32 (Z.of_nat (passes l)).
Proof.
  rewrite record_all_passed. simpl test_passed.
  destruct (Nat.eqb_spec (passes l) 0) as [->|_]; reflexivity.
Qed.

Lemma run_failed (l : list Assertion) :
  test_failed (record_all l reset) = u32 (Z.of_nat (failures l)).
Proof.
  rewrite record_all_failed. simpl test_failed.
  destruct (Nat.eqb_spec (failures l) 0) as [->|_]; reflexivity.
Qed.

Lemma run_result (l : list Assertion) :
  test_result (record_all l reset) = if (failures l =? 0)%nat then 0 else 1.
Proof. now rewrite record_all_result. Qed.

(** The status flag is raised exactly by a failed assertion, whatever the
    length of the run. *)
Lemma status_nonzero_iff_some_failure (l : list Assertion) :
  test_result (record_all l reset) <> 0
  <-> exists a, In a l /\ outcome a = false.
Proof.
  rewrite run_result. split.
  - intros H. destruct (Nat.eqb_spec (failures l) 0) as [E|E]; [easy|].
    clear H. unfold failures in E. induction l as [|a l IH]; [easy|].
    rewrite count_outcome_cons in E.
    destruct (outcome a) eqn:Ha.
    + destruct IH as (x & Hx & Hf); [exact E|]. exists x. split; [now right|easy].
    + exists a. split; [now left|easy].
  - intros (a & Ha & Hf).
    destruct (Nat.eqb_spec (failures l) 0) as [E|E]; [|lia].
    rewrite (proj1 (failures_zero_iff l) E a Ha) in Hf. discriminate.
Qed.

(** *** The run of [main] *)

(** Two consecutive [auipc] results differ by four wherever they are. *)
Lemma auipc_delta (pc : Z) : sub32u (auipc (pc + 4) 0) (auipc pc 0) = 4.
Proof.
  unfold sub32u, auipc, u32. rewrite Z.shiftl_0_l, !Z.add_0_r.
  rewrite <- Zminus_mod. replace (pc + 4 - pc) with 4 by lia. reflexivity.
Qed.

(** The loops and the recursion return what the groups expect. *)
Lemma for_loop_result : for_loop 0 0 = (10, 45).
Proof. reflexivity. Qed.

Lemma while_loop_result : while_loop 0 0 = (10, 45).
Proof. reflexivity. Qed.

Lemma recursive_sum_10 : recursive_sum 10 = 55.
Proof. reflexivity. Qed.

(** [main] over the ledger is its journal recorded from the reset ledger.
    The proof does not look at the outcome of the one assertion that depends
    on [pc]. *)
Lemma main_ledger_journal (pc : Z) :
  main_ledger pc = record_all (main_journal pc) reset.
Proof.
  unfold main_ledger, main_journal, run_all_tests, test_upper_immediates.
  cbv zeta.
  generalize (sub32u (auipc (pc + 4) 0) (auipc pc 0) =? 4).
  intros b; destruct b; vm_compute; reflexivity.
Qed.

Lemma main_journal_length (pc : Z) :
  List.length (main_journal pc) = static_assertions.
Proof.
  unfold main_journal, run_all_tests, test_upper_immediates.
  cbv zeta.
  generalize (sub32u (auipc (pc + 4) 0) (auipc pc 0) =? 4).
  intros b; destruct b; vm_compute; reflexivity.
Qed.

Lemma static_assertions_47 : static_assertions = 47%nat.
Proof. reflexivity. Qed.

(** On a processor that executes RV32I as specified every assertion of
    [main] passes. *)
Lemma main_journal_all_pass (pc : Z) :
  main_journal pc
  = map (pair true)
      ["ADD"; "SUB"; "AND"; "OR"; "XOR"; "SLLI"; "SRLI"; "SRL"; "SRAI";
       "SLT"; "SLT"; "SLTU";
       "LW"; "SW"; "LB sign extend"; "LBU zero extend"; "LH sign extend";
       "LHU zero extend";
       "LB"; "LH"; "SB"; "SH"; "SRL"; "SLL"; "SRA";
       "BEQ"; "BNE"; "BLT"; "BGE"; "BLTU"; "BGEU";
       "for loop"; "while loop";
       "function call"; "recursive function";
       "ADDI"; "ANDI"; "ORI"; "XORI"; "SLTI"; "SLTI"; "SLTIU";
       "LUI"; "LUI large"; "AUIPC";
       "JAL"; "JALR"].
Proof.
  unfold main_journal, run_all_tests, test_upper_immediates.
  cbv zeta. rewrite auipc_delta. vm_compute. reflexivity.
Qed.

Lemma main_ledger_all_pass (pc : Z) :
  main_ledger pc
  = {| test_result := 0; test_passed := 47; test_failed := 0 |}.
Proof.
  rewrite main_ledger_journal, main_journal_all_pass. vm_compute. reflexivity.
Qed.

Lemma main_returns_zero (pc : Z) : main pc = 0.
Proof. unfold main. now rewrite main_ledger_all_pass. Qed.

(** The nine groups run from any ledger. *)
Lemma run_all_tests_journal (pc : Z) (g : ledger) :
  run_all_tests ASSERT pc g = record_all (main_journal pc) g.
Proof.
  rewrite main_journal_all_pass.
  unfold run_all_tests, test_upper_immediates. cbv zeta. rewrite auipc_delta.
  lazy -[ASSERT]. reflexivity.
Qed.

Lemma run_all_tests_effect (pc : Z) (g : ledger) :
  test_passed (run_all_tests ASSERT pc g) = u32 (test_passed g + 47)
  /\ test_failed (run_all_tests ASSERT pc g) = test_failed g
  /\ test_result (run_all_tests ASSERT pc g) = test_result g.
Proof.
  rewrite run_all_tests_journal, main_journal_all_pass.
  rewrite record_all_passed, record_all_failed, record_all_result.
  repeat split; reflexivity.
Qed.

(** The five groups that follow [test_branches], run from any ledger. *)
Lemma groups_after_branches_journal (pc : Z) (g : ledger) :
  fold_left (fun g group => group g) (groups_after_branches ASSERT pc) g
  = record_all
      (map (pair true)
         ["for loop"; "while loop"; "function call"; "recursive function";
          "ADDI"; "ANDI"; "ORI"; "XORI"; "SLTI"; "SLTI"; "SLTIU";
          "LUI"; "LUI large"; "AUIPC"; "JAL"; "JALR"]) g.
Proof.
  unfold groups_after_branches. simpl fold_left.
  unfold test_upper_immediates. cbv zeta. rewrite auipc_delta.
  lazy -[ASSERT]. reflexivity.
Qed.

Lemma main_ledger_inverted_eq (pc : Z) :
  main_ledger_inverted pc
  = {| test_result := 1; test_passed := 46; test_failed := 1 |}.
Proof.
  unfold main_ledger_inverted, run_all_tests_inverted, test_upper_immediates.
  cbv zeta. rewrite auipc_delta. vm_compute. reflexivity.
Qed.

(** *** Status flag and failed counter *)

(** As long as the failed counter has not wrapped, it is zero exactly when
    the flag is. *)
Lemma bounded_run_status (l : list Assertion) :
  Z.of_nat (failures l) < modulus ->
  test_result (record_all l reset) = 0
  <-> test_failed (record_all l reset) = 0.
Proof.
  intros Hlt. rewrite run_result, run_failed.
  rewrite u32_small by lia.
  destruct (Nat.eqb_spec (failures l) 0) as [E|E].
  - rewrite E. split; reflexivity.
  - split; [discriminate|lia].
Qed.

(** C1, as the code has it.  For every sequence of assertions recorded after
    the reset in which fewer than 2^32 assertions failed, [test_result] is 0
    if and only if [test_failed] is 0, and [test_result] is non-zero exactly
    when at least one recorded assertion failed.  The bound is there because
    the counter is a [uint32_t]. *)
Theorem status_zero_iff_failed_zero (l : list Assertion) :
  Z.of_nat (failures l) < modulus ->
  (test_result (record_all l reset) = 0
   <-> test_failed (record_all l reset) = 0)
  /\ (test_result (record_all l reset) <> 0
      <-> exists a, In a l /\ outcome a = false).
Proof.
  intros Hlt. split.
  - now apply bounded_run_status.
  - apply status_nonzero_iff_some_failure.
Qed.

(** A run of the harness as it stands, followed by one failing assertion. *)
Lemma status_zero_iff_failed_zero_witness :
  Z.of_nat (failures (main_journal 0 ++ [(false, "SLTU")])) < modulus
  /\ ((test_result (record_all (main_journal 0 ++ [(false, "SLTU")]) reset)
       = 0
       <-> test_failed (record_all (main_journal 0 ++ [(false, "SLTU")])
                          reset) = 0)
      /\ (test_result (record_all (main_journal 0 ++ [(false, "SLTU")]) reset)
          <> 0
          <-> exists a, In a (main_journal 0 ++ [(false, "SLTU")])
                        /\ outcome a = false)).
Proof.
  split.
  - vm_compute. reflexivity.
  - apply (status_zero_iff_failed_zero (main_journal 0 ++ [(false, "SLTU")])).
    vm_compute. reflexivity.
Defined.

(** C1 as stated fails when the failed counter wraps: after 2^32 failing
    assertions [test_failed] is back to 0 while [test_result] is 1. *)
Lemma status_flag_vs_wrapped_counter :
  test_failed (record_all (repeat (false, "SLTU") (Z.to_nat modulus)) reset)
  = 0
  /\ test_result (record_all (repeat (false, "SLTU") (Z.to_nat modulus)) reset)
     = 1
  /\ ~ (test_result
          (record_all (repeat (false, "SLTU") (Z.to_nat modulus)) reset) = 0
        <-> test_failed
              (record_all (repeat (false, "SLTU") (Z.to_nat modulus)) reset)
            = 0).
Proof.
  assert (Hf : test_failed
                 (record_all (repeat (false, "SLTU") (Z.to_nat modulus)) reset)
               = 0).
  { rewrite run_failed, failures_repeat_false.
    rewrite Z2Nat.id by (pose proof modulus_pos; lia).
    apply u32_modulus. }
  assert (Hr : test_result
                 (record_all (repeat (false, "SLTU") (Z.to_nat modulus)) reset)
               = 1).
  { rewrite run_result, failures_repeat_false.
    destruct (Nat.eqb_spec (Z.to_nat modulus) 0) as [E|E]; [|reflexivity].
    exfalso. apply (f_equal Z.of_nat) in E.
    rewrite Z2Nat.id in E by (pose proof modulus_pos; lia).
    pose proof modulus_pos. simpl Z.of_nat in E. lia. }
  split; [exact Hf|]. split; [exact Hr|].
  rewrite Hf, Hr. intros [_ H]. specialize (H eq_refl). discriminate.
Qed.

(** In a run of [main] the two agree. *)
Lemma main_status_iff_failed (pc : Z) :
  main pc = 0 <-> test_failed (main_ledger pc) = 0.
Proof.
  unfold main. rewrite main_ledger_journal.
  apply bounded_run_status.
  pose proof (passes_failures_length (main_journal pc)) as H.
  rewrite main_journal_length, static_assertions_47 in H.
  unfold modulus. lia.
Qed.

(** *** The two counters add up to the number of assertions *)

Lemma bounded_run_sum (l : list Assertion) :
  Z.of_nat (List.length l) < modulus ->
  test_passed (record_all l reset) + test_failed (record_all l reset)
  = Z.of_nat (List.length l).
Proof.
  intros Hlt. rewrite run_passed, run_failed.
  pose proof (passes_failures_length l) as H.
  rewrite !u32_small by lia. lia.
Qed.

(** One [ASSERT] on counters that are not at their maximum adds one to
    exactly one of them and leaves the other alone. *)
Lemma ASSERT_increments_one (c : bool) (name : string) (g : ledger) :
  0 <= test_passed g < modulus - 1 ->
  0 <= test_failed g < modulus - 1 ->
  (test_passed (ASSERT c name g) = test_passed g + 1
   /\ test_failed (ASSERT c name g) = test_failed g)
  \/ (test_passed (ASSERT c name g) = test_passed g
      /\ test_failed (ASSERT c name g) = test_failed g + 1).
Proof.
  intros Hp Hf. unfold ASSERT. destruct c; simpl.
  - left. split; [apply u32_small; lia|reflexivity].
  - right. split; [reflexivity|apply u32_small; lia].
Qed.

Lemma firstn_succ_nth (A : Type) (l : list A) (n : nat) (a : A) :
  nth_error l n = Some a -> firstn (S n) l = firstn n l ++ [a].
Proof.
  revert n. induction l as [|x l IH]; intros [|n] H; simpl in H; try discriminate.
  - now inversion H.
  - simpl. f_equal. now apply IH.
Qed.

(** What one [ASSERT] does to the counters, by the outcome, as long as
    neither counter is at its maximum. *)
Lemma ASSERT_by_outcome (c : bool) (name : string) (g : ledger) :
  0 <= test_passed g < modulus - 1 ->
  0 <= test_failed g < modulus - 1 ->
  (c = true ->
   test_passed (ASSERT c name g) = test_passed g + 1
   /\ test_failed (ASSERT c name g) = test_failed g)
  /\ (c = false ->
      test_passed (ASSERT c name g) = test_passed g
      /\ test_failed (ASSERT c name g) = test_failed g + 1).
Proof.
  intros Hp Hf. unfold ASSERT. split; intros ->; simpl.
  - split; [apply u32_small; lia|reflexivity].
  - split; [reflexivity|apply u32_small; lia].
Qed.

Lemma prefix_sum (run : list Assertion) (k : nat) :
  Z.of_nat (List.length run) < modulus ->
  test_passed (record_all (firstn k run) reset)
  + test_failed (record_all (firstn k run) reset)
  = Z.of_nat (List.length (firstn k run)).
Proof.
  intros H. apply bounded_run_sum.
  pose proof (length_firstn k run). lia.
Qed.

Lemma prefix_step (run : list Assertion) (n : nat) (a : Assertion) :
  Z.of_nat (List.length run) < modulus ->
  nth_error run n = Some a ->
  record_all (firstn (S n) run) reset
  = record (record_all (firstn n run) reset) a
  /\ (outcome a = true ->
      test_passed (record_all (firstn (S n) run) reset)
      = test_passed (record_all (firstn n run) reset) + 1
      /\ test_failed (record_all (firstn (S n) run) reset)
         = test_failed (record_all (firstn n run) reset))
  /\ (outcome a = false ->
      test_passed (record_all (firstn (S n) run) reset)
      = test_passed (record_all (firstn n run) reset)
      /\ test_failed (record_all (firstn (S n) run) reset)
         = test_failed (record_all (firstn n run) reset) + 1).
Proof.
  intros Hlen Ha.
  assert (Hn : (n < List.length run)%nat)
    by (apply nth_error_Some; congruence).
  rewrite (firstn_succ_nth _ _ _ _ Ha), record_all_app.
  split; [reflexivity|].
  change (record_all [a] (record_all (firstn n run) reset))
    with (ASSERT (outcome a) (label a) (record_all (firstn n run) reset)).
  pose proof (passes_failures_length (firstn n run)) as Hc.
  pose proof (length_firstn n run) as Hf.
  apply ASSERT_by_outcome.
  - rewrite run_passed. rewrite u32_small; lia.
  - rewrite run_failed. rewrite u32_small; lia.
Qed.

(** The run of [main] on a processor that makes [observe] of the
    conditions. *)
Lemma run_observed_journal (pc : Z) (observe : bool -> string -> bool) :
  run_all_tests (ASSERT_observed observe) pc reset
  = record_all (observed observe (main_journal pc)) reset.
Proof.
  rewrite main_journal_all_pass.
  unfold run_all_tests, test_upper_immediates. cbv zeta. rewrite auipc_delta.
  lazy -[ASSERT]. reflexivity.
Qed.

Lemma observed_length (observe : bool -> string -> bool)
  (l : list Assertion) :
  List.length (observed observe l) = List.length l.
Proof. unfold observed. apply length_map. Qed.

(** C2.  [main] is its journal recorded from the reset ledger, and the
    journal has as many entries as the nine groups contain [ASSERT]s (47).
    After any number [n] of them [test_passed + test_failed] is the number
    of assertions recorded so far, at the end it is 47, and recording the
    next assertion adds exactly one to exactly one of the two counters.  The
    same holds whatever the outcomes are: on a processor that makes
    [observe] of the conditions the run is the same journal with those
    outcomes, the sum is again the number recorded at every point and 47 at
    the end, a passing assertion adds one to [test_passed] only and a failing
    one adds one to [test_failed] only; and so it is for any sequence of
    fewer than 2^32 assertions and for one [ASSERT] on any ledger whose
    counters are below their maximum. *)
Theorem passed_plus_failed_counts_assertions (pc : Z) (n : nat)
  (observe : bool -> string -> bool) :
  main_ledger pc = record_all (main_journal pc) reset
  /\ List.length (main_journal pc) = static_assertions
  /\ static_assertions = 47%nat
  /\ (forall pc', run_all_tests tally pc' 0%nat = static_assertions)
  /\ test_passed (record_all (firstn n (main_journal pc)) reset)
     + test_failed (record_all (firstn n (main_journal pc)) reset)
     = Z.of_nat (List.length (firstn n (main_journal pc)))
  /\ test_passed (main_ledger pc) + test_failed (main_ledger pc)
     = Z.of_nat static_assertions
  /\ (forall a, nth_error (main_journal pc) n = Some a ->
      record_all (firstn (S n) (main_journal pc)) reset
      = record (record_all (firstn n (main_journal pc)) reset) a
      /\ ((test_passed (record_all (firstn (S n) (main_journal pc)) reset)
           = test_passed (record_all (firstn n (main_journal pc)) reset) + 1
           /\ test_failed (record_all (firstn (S n) (main_journal pc)) reset)
              = test_failed (record_all (firstn n (main_journal pc)) reset))
          \/ (test_passed (record_all (firstn (S n) (main_journal pc)) reset)
              = test_passed (record_all (firstn n (main_journal pc)) reset)
              /\ test_failed
                   (record_all (firstn (S n) (main_journal pc)) reset)
                 = test_failed (record_all (firstn n (main_journal pc)) reset)
                   + 1)))
  /\ run_all_tests (ASSERT_observed observe) pc reset
     = record_all (observed observe (main_journal pc)) reset
  /\ List.length (observed observe (main_journal pc)) = static_assertions
  /\ test_passed
       (record_all (firstn n (observed observe (main_journal pc))) reset)
     + test_failed
         (record_all (firstn n (observed observe (main_journal pc))) reset)
     = Z.of_nat (List.length (firstn n (observed observe (main_journal pc))))
  /\ test_passed (run_all_tests (ASSERT_observed observe) pc reset)
     + test_failed (run_all_tests (ASSERT_observed observe) pc reset)
     = Z.of_nat static_assertions
  /\ (forall a, nth_error (observed observe (main_journal pc)) n = Some a ->
      record_all (firstn (S n) (observed observe (main_journal pc))) reset
      = record
          (record_all (firstn n (observed observe (main_journal pc))) reset)
          a
      /\ (outcome a = true ->
          test_passed
            (record_all (firstn (S n) (observed observe (main_journal pc)))
               reset)
          = test_passed
              (record_all (firstn n (observed observe (main_journal pc)))
                 reset) + 1
          /\ test_failed
               (record_all (firstn (S n) (observed observe (main_journal pc)))
                  reset)
             = test_failed
                 (record_all (firstn n (observed observe (main_journal pc)))
                    reset))
      /\ (outcome a = false ->
          test_passed
            (record_all (firstn (S n) (observed observe (main_journal pc)))
               reset)
          = test_passed
              (record_all (firstn n (observed observe (main_journal pc)))
                 reset)
          /\ test_failed
               (record_all (firstn (S n) (observed observe (main_journal pc)))
                  reset)
             = test_failed
                 (record_all (firstn n (observed observe (main_journal pc)))
                    reset) + 1))
  /\ (forall (l : list Assertion) (k : nat),
        Z.of_nat (List.length l) < modulus ->
        test_passed (record_all (firstn k l) reset)
        + test_failed (record_all (firstn k l) reset)
        = Z.of_nat (List.length (firstn k l)))
  /\ (forall (c : bool) (name : string) (g : ledger),
        0 <= test_passed g < modulus - 1 ->
        0 <= test_failed g < modulus - 1 ->
        (c = true ->
         test_passed (ASSERT c name g) = test_passed g + 1
         /\ test_failed (ASSERT c name g) = test_failed g)
        /\ (c = false ->
            test_passed (ASSERT c name g) = test_passed g
            /\ test_failed (ASSERT c name g) = test_failed g + 1)).
Proof.
  pose proof (main_journal_length pc) as Hlen.
  rewrite static_assertions_47 in Hlen.
  assert (Hm : Z.of_nat (List.length (main_journal pc)) < modulus)
    by (rewrite Hlen; unfold modulus; lia).
  assert (Ho : Z.of_nat (List.length (observed observe (main_journal pc)))
               < modulus)
    by (now rewrite observed_length).
  split; [apply main_ledger_journal|].
  split; [apply main_journal_length|].
  split; [reflexivity|].
  split; [intros pc'; reflexivity|].
  split; [now apply prefix_sum|].
  split.
  { rewrite main_ledger_journal, static_assertions_47, <- Hlen.
    now apply bounded_run_sum. }
  split.
  { intros a Ha.
    destruct (prefix_step _ n a Hm Ha) as (E & Ht & Hf).
    split; [exact E|].
    destruct (outcome a); [left; now apply Ht|right; now apply Hf]. }
  split; [apply run_observed_journal|].
  split; [rewrite observed_length; apply main_journal_length|].
  split; [now apply prefix_sum|].
  split.
  { rewrite run_observed_journal, static_assertions_47, <- Hlen.
    rewrite <- (observed_length observe). now apply bounded_run_sum. }
  split; [intros a Ha; now apply prefix_step|].
  split; [intros l k Hl; now apply prefix_sum|].
  intros c name g. apply ASSERT_by_outcome.
Qed.

(** A processor that gets every condition wrong: the fourth assertion of the
    run, ["OR"], fails after three that failed. *)
Lemma passed_plus_failed_counts_assertions_witness :
  nth_error (observed (fun _ _ => false) (main_journal 0)) 3
  = Some (false, "OR")
  /\ outcome (false, "OR") = false
  /\ test_passed
       (record_all (firstn 4 (observed (fun _ _ => false) (main_journal 0)))
          reset) = 0
  /\ test_failed
       (record_all (firstn 4 (observed (fun _ _ => false) (main_journal 0)))
          reset) = 3 + 1
  /\ Z.of_nat (List.length [(true, "ADD"); (false, "SUB")]) < modulus
  /\ test_passed (record_all (firstn 2 [(true, "ADD"); (false, "SUB")]) reset)
     + test_failed
         (record_all (firstn 2 [(true, "ADD"); (false, "SUB")]) reset)
     = 2.
Proof.
  destruct (passed_plus_failed_counts_assertions 0 3 (fun _ _ => false))
    as (_ & _ & _ & _ & _ & _ & _ & _ & _ & _ & _ & Hstep & Hany & _).
  assert (Hn : nth_error (observed (fun _ _ => false) (main_journal 0)) 3
               = Some (false, "OR")) by (vm_compute; reflexivity).
  assert (Hl : Z.of_nat (List.length [(true, "ADD"); (false, "SUB")])
               < modulus) by (vm_compute; reflexivity).
  destruct (Hstep (false, "OR") Hn) as (_ & _ & Hf).
  destruct (Hf eq_refl) as [Hp Hq].
  split; [exact Hn|]. split; [reflexivity|].
  split; [rewrite Hp; vm_compute; reflexivity|].
  split; [rewrite Hq; vm_compute; reflexivity|].
  split; [exact Hl|].
  exact (Hany [(true, "ADD"); (false, "SUB")] 2%nat Hl).
Defined.

(** *** A failing assertion does not stop the run *)

(** Whatever the ledger holds when they start, the five groups after
    [test_branches] run through, add their sixteen passing assertions to
    [test_passed] and touch neither [test_failed] nor [test_result]. *)
Lemma groups_after_branches_effect (pc : Z) (g : ledger) :
  test_passed
    (fold_left (fun g group => group g) (groups_after_branches ASSERT pc) g)
  = u32 (test_passed g + 16)
  /\ test_failed
       (fold_left (fun g group => group g) (groups_after_branches ASSERT pc) g)
     = test_failed g
  /\ test_result
       (fold_left (fun g group => group g) (groups_after_branches ASSERT pc) g)
     = test_result g.
Proof.
  rewrite groups_after_branches_journal.
  rewrite record_all_passed, record_all_failed, record_all_result.
  repeat split; reflexivity.
Qed.

(** The ledger right after the mutated [test_branches]. *)
Lemma ledger_after_inverted_branches :
  test_branches_inverted ASSERT
    (test_explicit_instructions ASSERT
       (test_memory ASSERT (test_arithmetic ASSERT reset)))
  = {| test_result := 1; test_passed := 30; test_failed := 1 |}.
Proof. vm_compute. reflexivity. Qed.

(** C3.  With the last assertion of [test_branches] inverted ([count == 99]
    where the count is 6) the run of [main] still goes through all nine
    groups: it is the five later groups run from the ledger the mutated
    group leaves (one failure, flag set); it ends with [test_failed >= 1] and
    [test_result <> 0]; and the sixteen assertions of the later groups are
    all counted in [test_passed].  The later groups do so from any ledger, as
    do the nine groups of [main] with their 47; and in any sequence of
    assertions those recorded after a failing one are recorded as they would
    be otherwise. *)
Theorem failing_assertion_never_aborts (pc : Z) :
  main_ledger_inverted pc
  = fold_left (fun g group => group g) (groups_after_branches ASSERT pc)
      (test_branches_inverted ASSERT
         (test_explicit_instructions ASSERT
            (test_memory ASSERT (test_arithmetic ASSERT reset))))
  /\ test_failed
       (test_branches_inverted ASSERT
          (test_explicit_instructions ASSERT
             (test_memory ASSERT (test_arithmetic ASSERT reset)))) = 1
  /\ 1 <= test_failed (main_ledger_inverted pc)
  /\ test_result (main_ledger_inverted pc) <> 0
  /\ test_passed (main_ledger_inverted pc)
     = test_passed
         (test_branches_inverted ASSERT
            (test_explicit_instructions ASSERT
               (test_memory ASSERT (test_arithmetic ASSERT reset)))) + 16
  /\ (forall g : ledger,
        test_passed
          (fold_left (fun g group => group g)
             (groups_after_branches ASSERT pc) g)
        = u32 (test_passed g + 16)
        /\ test_failed
             (fold_left (fun g group => group g)
                (groups_after_branches ASSERT pc) g)
           = test_failed g
        /\ test_result
             (fold_left (fun g group => group g)
                (groups_after_branches ASSERT pc) g)
           = test_result g)
  /\ (forall g : ledger,
        test_passed (run_all_tests ASSERT pc g) = u32 (test_passed g + 47)
        /\ test_failed (run_all_tests ASSERT pc g) = test_failed g
        /\ test_result (run_all_tests ASSERT pc g) = test_result g)
  /\ (forall (l1 l2 : list Assertion) (name : string),
        record_all (l1 ++ (false, name) :: l2) reset
        = record_all l2 (ASSERT false name (record_all l1 reset))
        /\ test_result (record_all (l1 ++ (false, name) :: l2) reset) = 1
        /\ test_passed (record_all (l1 ++ (false, name) :: l2) reset)
           = u32 (Z.of_nat (passes l1 + passes l2))).
Proof.
  split; [reflexivity|].
  rewrite ledger_after_inverted_branches, main_ledger_inverted_eq.
  simpl test_failed. simpl test_result. simpl test_passed.
  split; [reflexivity|]. split; [lia|]. split; [discriminate|].
  split; [reflexivity|]. split; [|split].
  - apply groups_after_branches_effect.
  - apply run_all_tests_effect.
  - intros l1 l2 name. split; [|split].
    + now rewrite record_all_app.
    + rewrite run_result. unfold failures.
      rewrite count_outcome_app, count_outcome_cons. simpl Bool.eqb.
      destruct (_ =? _)%nat eqn:E; [apply Nat.eqb_eq in E; lia|reflexivity].
    + rewrite run_passed. unfold passes.
      rewrite count_outcome_app, count_outcome_cons. reflexivity.
Qed.

End LedgerFacts.

(** * Properties of the Makefile *)

Module MakeFacts.

Import Make.

(** *** Strings *)

Lemma append_empty_r (s : string) : (s ++ "")%string = s.
Proof. induction s as [|c s IH]; simpl; [reflexivity|now rewrite IH]. Qed.

Lemma append_assoc (s t u : string) :
  ((s ++ t) ++ u)%string = (s ++ t ++ u)%string.
Proof. induction s as [|c s IH]; simpl; [reflexivity|now rewrite IH]. Qed.

Lemma drop_prefix_spec (p s rest : string) :
  drop_prefix p s = Some rest <-> s = (p ++ rest)%string.
Proof.
  revert s. induction p as [|a p IH]; intros s; simpl.
  - split; [now intros [= ->]|now intros ->].
  - destruct s as [|b s].
    + split; discriminate.
    + destruct (Ascii.eqb_spec a b) as [->|Hne].
      * rewrite IH. split; [now intros ->|now intros [= ->]].
      * split; [discriminate|]. intros [= E _]. now elim Hne.
Qed.

Lemma drop_prefix_append (p rest : string) :
  drop_prefix p (p ++ rest) = Some rest.
Proof. now apply drop_prefix_spec. Qed.

Lemma append_cancel_l (p s t : string) :
  (p ++ s)%string = (p ++ t)%string -> s = t.
Proof.
  intros E. pose proof (drop_prefix_append p s) as H.
  rewrite E, drop_prefix_append in H. now inversion H.
Qed.

(** *** Word boundaries around a mnemonic *)

Lemma mnemonic_starts_with_word (insn rest : string) :
  mnemonic insn -> starts_with_word (insn ++ rest) = true.
Proof.
  intros [Hne Hw]. destruct insn as [|c insn]; [easy|].
  simpl in *. now apply andb_prop in Hw.
Qed.

Lemma mnemonic_ends_in_word (insn : string) :
  mnemonic insn -> forall prev, ends_in_word prev insn = true.
Proof.
  intros [Hne Hw]. destruct insn as [|c insn]; [easy|]. clear Hne.
  revert c Hw. induction insn as [|d insn IH]; intros c Hw prev.
  - simpl in *. now apply andb_prop in Hw.
  - simpl in Hw. apply andb_prop in Hw as [_ Hw].
    change (ends_in_word (is_word_char c) (String d insn) = true).
    now apply IH.
Qed.

Lemma match_here_spec (insn : string) (prev : bool) (line : string) :
  mnemonic insn ->
  match_here prev insn line = true
  <-> prev = false
      /\ exists post, line = (insn ++ post)%string
                      /\ starts_with_word post = false.
Proof.
  intros Hm. unfold match_here, word_boundary.
  destruct (drop_prefix insn line) as [rest|] eqn:E.
  - apply drop_prefix_spec in E. subst line.
    rewrite (mnemonic_starts_with_word insn rest Hm).
    rewrite (mnemonic_ends_in_word insn Hm prev).
    split.
    + intros H. apply andb_prop in H as [Hp Hr].
      destruct prev; [discriminate|]. split; [reflexivity|].
      exists rest. split; [reflexivity|].
      destruct (starts_with_word rest); [discriminate|reflexivity].
    + intros (-> & post & Epost & Hpost).
      apply append_cancel_l in Epost. subst post. now rewrite Hpost.
  - split; [discriminate|].
    intros (_ & post & -> & _). now rewrite drop_prefix_append in E.
Qed.

Lemma match_from_spec (insn : string) :
  mnemonic insn ->
  forall (line : string) (prev : bool),
    match_from prev insn line = true
    <-> exists pre post,
          line = (pre ++ insn ++ post)%string
          /\ ends_in_word prev pre = false
          /\ starts_with_word post = false.
Proof.
  intros Hm line. induction line as [|c line IH]; intros prev.
  - simpl match_from. rewrite orb_false_r, (match_here_spec _ _ _ Hm). split.
    + intros (-> & post & E & Hpost). exists ""%string, post. simpl. auto.
    + intros (pre & post & E & _ & _). exfalso.
      destruct pre; [|discriminate]. simpl in E.
      destruct Hm as [Hne _]. destruct insn; [easy|discriminate].
  - simpl match_from. rewrite orb_true_iff, (match_here_spec _ _ _ Hm), IH.
    split.
    + intros [(-> & post & E & Hpost)|(pre & post & E & Hpre & Hpost)].
      * exists ""%string, post. simpl. auto.
      * exists (String c pre), post. simpl. rewrite E. auto.
    + intros ([|c' pre] & post & E & Hpre & Hpost).
      * left. simpl in *. split; [exact Hpre|]. exists post. auto.
      * right. simpl in E. injection E as -> ->.
        exists pre, post. auto.
Qed.

(** The pattern of the recipe on one line, and [grep -q] on the file. *)
Lemma line_matches_iff (insn line : string) :
  mnemonic insn -> line_matches insn line = true <-> standalone_token insn line.
Proof. intros Hm. apply (match_from_spec insn Hm line false). Qed.

Lemma grep_present_iff (insn : string) (listing : list string) :
  mnemonic insn -> grep_qE_word insn listing = true <-> present insn listing.
Proof.
  intros Hm. unfold grep_qE_word, present. rewrite existsb_exists.
  split; intros (line & Hin & H); exists line; split; trivial;
    now apply (line_matches_iff insn line Hm).
Qed.

Lemma grep_absent_iff (insn : string) (listing : list string) :
  mnemonic insn ->
  grep_qE_word insn listing = false <-> ~ present insn listing.
Proof.
  intros Hm. rewrite <- (grep_present_iff insn listing Hm).
  destruct (grep_qE_word insn listing); split; congruence.
Qed.

Lemma RV32I_insns_mnemonic (insn : string) :
  In insn RV32I_insns -> mnemonic insn.
Proof.
  intros Hin. split.
  - intros ->. simpl in Hin. repeat (destruct Hin as [Hin|Hin]; [discriminate|]).
    exact Hin.
  - revert insn Hin. apply forallb_forall. reflexivity.
Qed.

(** *** The loop of [verify-instructions] *)

Lemma loop_spec (DUMP : list string) (insns : list string) :
  forall sh : shell,
    fold_left (loop_body DUMP) insns sh
    = {| missing := missing sh + Z.of_nat (List.length (absent DUMP insns));
         stdout := stdout sh ++ map missing_line (absent DUMP insns) |}.
Proof.
  unfold absent.
  induction insns as [|insn insns IH]; intros sh.
  - simpl. rewrite Z.add_0_r, app_nil_r. now destruct sh.
  - simpl fold_left. rewrite IH. unfold loop_body. simpl filter.
    destruct (negb (grep_qE_word insn DUMP)).
    + simpl missing. simpl stdout. rewrite <- app_assoc. simpl app.
      f_equal. simpl List.length. lia.
    + reflexivity.
Qed.

Lemma verify_recipe_all_present (insns DUMP : list string) :
  absent DUMP insns = [] ->
  verify_recipe insns DUMP
  = (["Checking RV32I instruction coverage...";
      "  All RV32I instructions present in dump."], 0).
Proof.
  intros E. unfold verify_recipe. rewrite loop_spec, E. reflexivity.
Qed.

Lemma verify_recipe_some_absent (insns DUMP : list string) :
  absent DUMP insns <> [] ->
  verify_recipe insns DUMP
  = ("Checking RV32I instruction coverage..."
     :: map missing_line (absent DUMP insns)
     ++ [("  " ++ decimal (Z.of_nat (List.length (absent DUMP insns)))
          ++ " instruction(s) not found.")%string],
     1).
Proof.
  intros Hne. unfold verify_recipe. rewrite loop_spec.
  simpl missing. simpl stdout.
  destruct (absent DUMP insns) as [|insn l] eqn:E; [easy|].
  destruct (Z.eqb_spec (Z.of_nat (List.length (insn :: l))) 0) as [H0|_].
  - simpl List.length in H0. lia.
  - reflexivity.
Qed.

Lemma verify_recipe_status (insns DUMP : list string) :
  snd (verify_recipe insns DUMP)
  = match absent DUMP insns with [] => 0 | _ :: _ => 1 end.
Proof.
  destruct (absent DUMP insns) as [|insn l] eqn:E.
  - now rewrite verify_recipe_all_present.
  - rewrite verify_recipe_some_absent; [reflexivity|]. now rewrite E.
Qed.

(** *** Reading the report off the output *)

Lemma reported_app (out1 out2 : list string) :
  reported (out1 ++ out2) = reported out1 ++ reported out2.
Proof.
  induction out1 as [|line out1 IH]; [reflexivity|].
  cbn [app reported]. rewrite IH.
  destruct (drop_prefix "  MISSING: " line); reflexivity.
Qed.

Lemma reported_missing_lines (l : list string) :
  reported (map missing_line l) = l.
Proof.
  induction l as [|insn l IH]; [reflexivity|].
  cbn [map reported]. unfold missing_line at 1.
  now rewrite drop_prefix_append, IH.
Qed.

Lemma summary_is_no_missing_line (n : Z) :
  drop_prefix "  MISSING: "
    ("  " ++ decimal n ++ " instruction(s) not found.")%string = None.
Proof.
  unfold decimal. destruct (Z.to_int n) as [d|d].
  - destruct d; reflexivity.
  - reflexivity.
Qed.

Lemma reported_header (out : list string) :
  reported ("Checking RV32I instruction coverage..." :: out) = reported out.
Proof. reflexivity. Qed.

Lemma reported_summary (n : Z) :
  reported [("  " ++ decimal n ++ " instruction(s) not found.")%string] = [].
Proof. cbn [reported]. now rewrite summary_is_no_missing_line. Qed.

Lemma verify_spec (listing required : list string) :
  verify listing required
  = {| report_missing := absent listing required;
       report_ok := match absent listing required with
                    | [] => true
                    | _ :: _ => false
                    end |}.
Proof.
  unfold verify.
  destruct (absent listing required) as [|insn l] eqn:E.
  - rewrite verify_recipe_all_present by exact E. reflexivity.
  - rewrite verify_recipe_some_absent by (now rewrite E).
    cbv beta iota zeta. rewrite E.
    rewrite reported_header, reported_app, reported_missing_lines.
    rewrite reported_summary, app_nil_r. reflexivity.
Qed.

Lemma verify_recipe_reported (insns DUMP : list string) :
  reported (fst (verify_recipe insns DUMP)) = absent DUMP insns.
Proof.
  destruct (absent DUMP insns) as [|insn l] eqn:E.
  - rewrite verify_recipe_all_present by exact E. reflexivity.
  - rewrite verify_recipe_some_absent by (now rewrite E).
    cbn [fst]. rewrite E.
    rewrite reported_header, reported_app, reported_missing_lines.
    now rewrite reported_summary, app_nil_r.
Qed.

Lemma absent_permutation (listing required required' : list string) :
  Permutation required required' ->
  Permutation (absent listing required) (absent listing required').
Proof.
  unfold absent. intros HP. induction HP.
  - constructor.
  - simpl. destruct (negb (grep_qE_word x listing)); [now constructor|easy].
  - simpl. destruct (negb (grep_qE_word x listing)),
                    (negb (grep_qE_word y listing));
      try reflexivity; now constructor.
  - etransitivity; eassumption.
Qed.

Lemma absent_nil_iff (listing required : list string) :
  absent listing required = []
  <-> forall insn, In insn required -> grep_qE_word insn listing = true.
Proof.
  unfold absent. induction required as [|insn l IH]; simpl.
  - split; [intros _ x []|reflexivity].
  - destruct (grep_qE_word insn listing) eqn:E; simpl.
    + rewrite IH. split.
      * intros H x [<-|Hx]; [exact E|now apply H].
      * intros H x Hx. apply H. now right.
    + split; [discriminate|]. intros H.
      specialize (H insn (or_introl eq_refl)). congruence.
Qed.

(** *** Order of the required list *)

(** C5.  For every listing and every two required lists that are
    permutations of each other, [ok] is the same for both; for each of them
    [missing] is the list of the required mnemonics [grep] does not find, in
    the order of that required list; and [ok] holds exactly when [missing] is
    empty (which is when the recipe exits with 0).  The proof uses nothing of
    [grep] but that its answer depends on the mnemonic and the listing
    only. *)
Theorem verifier_order (listing required required' : list string) :
  Permutation required required' ->
  report_ok (verify listing required) = report_ok (verify listing required')
  /\ report_missing (verify listing required)
     = filter (fun insn => negb (grep_qE_word insn listing)) required
  /\ report_missing (verify listing required')
     = filter (fun insn => negb (grep_qE_word insn listing)) required'
  /\ Permutation (report_missing (verify listing required))
       (report_missing (verify listing required'))
  /\ (report_ok (verify listing required) = true
      <-> report_missing (verify listing required) = [])
  /\ (report_ok (verify listing required) = true
      <-> snd (verify_recipe required listing) = 0).
Proof.
  intros HP. rewrite !verify_spec, verify_recipe_status. simpl.
  pose proof (absent_permutation listing _ _ HP) as HA.
  split; [|split; [reflexivity|split; [reflexivity|split; [exact HA|]]]].
  - destruct (absent listing required) as [|x l].
    + apply Permutation_nil in HA. now rewrite HA.
    + destruct (absent listing required') as [|y l'].
      * symmetry in HA. apply Permutation_nil in HA. discriminate.
      * reflexivity.
  - destruct (absent listing required); split; split; congruence.
Qed.

Lemma verifier_order_witness :
  Permutation ["add"; "sub"; "jal"; "sll"] ["sub"; "add"; "jal"; "sll"]
  /\ report_ok (verify ["add a0,a0,a1"; "jal ra,40"]
                  ["add"; "sub"; "jal"; "sll"])
     = report_ok (verify ["add a0,a0,a1"; "jal ra,40"]
                    ["sub"; "add"; "jal"; "sll"])
  /\ report_missing (verify ["add a0,a0,a1"; "jal ra,40"]
                       ["add"; "sub"; "jal"; "sll"])
     = ["sub"; "sll"].
Proof.
  split; [apply perm_swap|].
  destruct (verifier_order ["add a0,a0,a1"; "jal ra,40"]
              ["add"; "sub"; "jal"; "sll"] ["sub"; "add"; "jal"; "sll"]
              (perm_swap _ _ _))
    as (H1 & H2 & _).
  split; [exact H1|]. rewrite H2. vm_compute. reflexivity.
Defined.

(** [add] and [jal] in the listing, [sub] not. *)
Example verify_reports_sub :
  verify ["  10:	00b50533	add	a0,a0,a1"; "  14:	008000ef	jal	ra,1c"]
    ["add"; "sub"; "jal"]
  = {| report_missing := ["sub"]; report_ok := false |}.
Proof. vm_compute. reflexivity. Qed.

(** *** Exit status and report of the coverage check *)

Lemma absent_In (listing required : list string) (insn : string) :
  In insn (absent listing required)
  <-> In insn required /\ grep_qE_word insn listing = false.
Proof.
  unfold absent. rewrite filter_In.
  destruct (grep_qE_word insn listing); simpl; intuition congruence.
Qed.

Lemma RV32I_insns_NoDup : NoDup RV32I_insns.
Proof.
  assert (E : nodup string_dec RV32I_insns = RV32I_insns)
    by (vm_compute; reflexivity).
  rewrite <- E. apply NoDup_nodup.
Qed.

(** *** The required mnemonics *)

Lemma not_In_by_eqb (s : string) (l : list string) :
  existsb (String.eqb s) l = false -> ~ In s l.
Proof.
  intros H Hin.
  assert (E : existsb (String.eqb s) l = true).
  { apply existsb_exists. exists s. split; [exact Hin|apply String.eqb_refl]. }
  congruence.
Qed.

Lemma present_app (insn : string) (before DUMP after : list string) :
  present insn DUMP -> present insn (before ++ DUMP ++ after).
Proof.
  intros (line & Hin & Ht). exists line. split; [|exact Ht].
  apply in_or_app. right. apply in_or_app. now left.
Qed.

Lemma all_present_passes (DUMP : list string) :
  (forall insn, In insn RV32I_insns -> present insn DUMP) ->
  verify_instructions DUMP
  = (["Checking RV32I instruction coverage...";
      "  All RV32I instructions present in dump."], 0).
Proof.
  intros H. apply verify_recipe_all_present, absent_nil_iff.
  intros insn Hin.
  apply grep_present_iff; [now apply RV32I_insns_mnemonic|now apply H].
Qed.

(** *** Toolchain detection *)

Lemma detect_first_on_path (h : Host) :
  detect h
  = match find (on_search_path h) candidate_prefixes with
    | Some prefix => prefix
    | None => fallback_prefix
    end.
Proof.
  unfold detect, candidate_prefixes, on_search_path, fallback_prefix.
  cbn [find append].
  destruct (command_v h "riscv64-unknown-elf-gcc"); [reflexivity|].
  destruct (command_v h "riscv32-unknown-elf-gcc"); [reflexivity|].
  destruct (command_v h "riscv64-linux-gnu-gcc"); [reflexivity|].
  destruct (command_v h "riscv32-linux-gnu-gcc"); [reflexivity|].
  destruct (test_f h "/opt/homebrew/bin/riscv64-unknown-elf-gcc");
    [reflexivity|].
  destruct (test_f h "/usr/local/bin/riscv64-unknown-elf-gcc"); reflexivity.
Qed.

(** C7 as stated (each installation directory probed for the compilers of
    the same four candidates, the first match deciding) is not what the
    recipe does: with nothing on the search path and only
    [/opt/homebrew/bin/riscv32-unknown-elf-gcc] installed, the stated policy
    selects [riscv32-unknown-elf-], the recipe [riscv64-unknown-elf-]. *)
Lemma install_dir_probe_counterexample :
  TOOLCHAIN_PREFIX None
    (mkHost (fun _ => false)
       (String.eqb "/opt/homebrew/bin/riscv32-unknown-elf-gcc"))
  = "riscv64-unknown-elf-"
  /\ detect_as_specified None
       (mkHost (fun _ => false)
          (String.eqb "/opt/homebrew/bin/riscv32-unknown-elf-gcc"))
     = "riscv32-unknown-elf-"
  /\ TOOLCHAIN_PREFIX None
       (mkHost (fun _ => false)
          (String.eqb "/opt/homebrew/bin/riscv32-unknown-elf-gcc"))
     <> detect_as_specified None
          (mkHost (fun _ => false)
             (String.eqb "/opt/homebrew/bin/riscv32-unknown-elf-gcc")).
Proof.
  split; [vm_compute; reflexivity|].
  split; [vm_compute; reflexivity|].
  vm_compute. discriminate.
Qed.

(** C7, as the code has it.  An override given by the caller wins; otherwise
    the first of [riscv64-unknown-elf-], [riscv32-unknown-elf-],
    [riscv64-linux-gnu-], [riscv32-linux-gnu-] whose compiler is on the search
    path; otherwise [riscv64-unknown-elf-], both when
    [riscv64-unknown-elf-gcc] is found in [/opt/homebrew/bin] or
    [/usr/local/bin] (the only file the directories are probed for) and when
    it is found nowhere.  In the last case the prefix is used unverified, and
    the failure comes later, from [check-toolchain]. *)
Theorem toolchain_detection_priority (override : option string) (h : Host) :
  TOOLCHAIN_PREFIX override h
  = match override with
    | Some prefix => prefix
    | None =>
        match find (on_search_path h) candidate_prefixes with
        | Some prefix => prefix
        | None => "riscv64-unknown-elf-"
        end
    end
  /\ candidate_prefixes
     = ["riscv64-unknown-elf-"; "riscv32-unknown-elf-"; "riscv64-linux-gnu-";
        "riscv32-linux-gnu-"]
  /\ (forall h' : Host,
        (forall x, command_v h' x = command_v h x) ->
        TOOLCHAIN_PREFIX override h' = TOOLCHAIN_PREFIX override h)
  /\ TOOLCHAIN_PREFIX None (mkHost (fun _ => false) (fun _ => false))
     = "riscv64-unknown-elf-"
  /\ CHECK_TOOLCHAIN None (mkHost (fun _ => false) (fun _ => false)) = false.
Proof.
  split; [|split; [reflexivity|split; [|split; reflexivity]]].
  - destruct override as [prefix|]; [reflexivity|].
    apply detect_first_on_path.
  - intros h' Hh. destruct override as [prefix|]; [reflexivity|].
    unfold TOOLCHAIN_PREFIX. rewrite !detect_first_on_path.
    unfold candidate_prefixes, on_search_path. cbn [find].
    now rewrite !Hh.
Qed.

Lemma toolchain_detection_priority_witness :
  (forall x, command_v (mkHost (String.eqb "riscv32-unknown-elf-gcc")
                          (fun _ => true)) x
             = command_v (mkHost (String.eqb "riscv32-unknown-elf-gcc")
                            (fun _ => false)) x)
  /\ TOOLCHAIN_PREFIX None
       (mkHost (String.eqb "riscv32-unknown-elf-gcc") (fun _ => true))
     = TOOLCHAIN_PREFIX None
         (mkHost (String.eqb "riscv32-unknown-elf-gcc") (fun _ => false)).
Proof.
  split; [intros x; reflexivity|].
  destruct (toolchain_detection_priority None
              (mkHost (String.eqb "riscv32-unknown-elf-gcc") (fun _ => false)))
    as (_ & _ & H & _).
  apply H. intros x. reflexivity.
Defined.

(** Where the stated policy and the recipe agree: whenever the installation
    directories hold no compiler of another candidate ahead of
    [riscv64-unknown-elf-gcc]. *)
Lemma detect_as_specified_agrees (override : option string) (h : Host) :
  first_installed h = None \/ first_installed h = Some fallback_prefix ->
  detect_as_specified override h = TOOLCHAIN_PREFIX override h.
Proof.
  intros H. destruct override as [prefix|]; [reflexivity|].
  unfold detect_as_specified, TOOLCHAIN_PREFIX.
  rewrite detect_first_on_path.
  destruct (find (on_search_path h) candidate_prefixes); [reflexivity|].
  destruct H as [-> | ->]; reflexivity.
Qed.

(** *** The architecture string *)

Lemma length_append (s t : string) :
  String.length (s ++ t) = (String.length s + String.length t)%nat.
Proof. induction s as [|c s IH]; simpl; [reflexivity|now rewrite IH]. Qed.

(** C8.  [FULL_ARCH] is the base string followed by the extension string,
    character for character: nothing is merged, reordered or rejected, and
    with no extension it is the base string. *)
Theorem FULL_ARCH_concatenation (ARCH ISA_EXTENSIONS : string)
  (extensions : list string) :
  FULL_ARCH ARCH ISA_EXTENSIONS = (ARCH ++ ISA_EXTENSIONS)%string
  /\ FULL_ARCH ARCH "" = ARCH
  /\ FULL_ARCH ARCH (extension_string []) = ARCH
  /\ FULL_ARCH ARCH (extension_string extensions)
     = (ARCH ++ extension_string extensions)%string
  /\ String.length (FULL_ARCH ARCH ISA_EXTENSIONS)
     = (String.length ARCH + String.length ISA_EXTENSIONS)%nat
  /\ FULL_ARCH "rv32i" (extension_string ["m"; "m"]) = "rv32imm"
  /\ FULL_ARCH "rv32i" (extension_string ["c"; "m"]) = "rv32icm"
  /\ FULL_ARCH "rv32i" (extension_string ["?"]) = "rv32i?".
Proof.
  assert (H : forall e, FULL_ARCH ARCH e = (ARCH ++ e)%string).
  { intros e. unfold FULL_ARCH.
    destruct (String.eqb_spec e "") as [->|_]; simpl.
    - now rewrite append_empty_r.
    - reflexivity. }
  split; [apply H|].
  split; [reflexivity|]. split; [reflexivity|].
  split; [apply H|].
  split; [rewrite H; apply length_append|].
  repeat split; reflexivity.
Qed.

End MakeFacts.

(** * Further properties of the harness *)

Module HarnessExtra.

Import Word Rv32i Ledger Tests LedgerFacts.

(** *** The ledger under any sequence of assertions *)

(** X1.  After any sequence of assertions recorded from the reset ledger the
    two counters hold the numbers of passed and failed assertions modulo
    2^32, their sum is the number of assertions modulo 2^32, every global is
    a 32-bit value and [test_result], which [main] returns, is 0 or 1. *)
Theorem counters_modulo (l : list Assertion) :
  test_passed (record_all l reset) = Z.of_nat (passes l) mod 2 ^ 32
  /\ test_failed (record_all l reset) = Z.of_nat (failures l) mod 2 ^ 32
  /\ (test_passed (record_all l reset) + test_failed (record_all l reset))
     mod 2 ^ 32
     = Z.of_nat (List.length l) mod 2 ^ 32
  /\ 0 <= test_passed (record_all l reset) < 2 ^ 32
  /\ 0 <= test_failed (record_all l reset) < 2 ^ 32
  /\ (test_result (record_all l reset) = 0
      \/ test_result (record_all l reset) = 1).
Proof.
  rewrite run_passed, run_failed, run_result.
  split; [reflexivity|]. split; [reflexivity|]. split.
  - unfold u32, modulus. rewrite <- Z.add_mod by lia.
    f_equal. pose proof (passes_failures_length l). lia.
  - split; [apply u32_range|]. split; [apply u32_range|].
    destruct (failures l =? 0)%nat; auto.
Qed.

(** X2.  The flag is sticky: from a ledger whose [test_result] is not 0 no
    sequence of assertions brings it back to 0. *)
Theorem flag_is_sticky (g : ledger) (l : list Assertion) :
  test_result g <> 0 -> test_result (record_all l g) <> 0.
Proof.
  intros H. rewrite record_all_result.
  destruct (failures l =? 0)%nat; [exact H|discriminate].
Qed.

Lemma flag_is_sticky_witness :
  test_result (ASSERT false "BEQ" reset) <> 0
  /\ test_result
       (record_all [(true, "BNE"); (true, "BLT")] (ASSERT false "BEQ" reset))
     <> 0.
Proof.
  assert (H : test_result (ASSERT false "BEQ" reset) <> 0)
    by (vm_compute; discriminate).
  split; [exact H|].
  exact (flag_is_sticky _ [(true, "BNE"); (true, "BLT")] H).
Defined.

Lemma count_outcome_permutation (b : bool) (l l' : list Assertion) :
  Permutation l l' -> count_outcome b l = count_outcome b l'.
Proof.
  intros HP. induction HP.
  - reflexivity.
  - rewrite !count_outcome_cons. now rewrite IHHP.
  - rewrite !count_outcome_cons. lia.
  - congruence.
Qed.

Lemma ledger_eq (g g' : ledger) :
  test_result g = test_result g' ->
  test_passed g = test_passed g' ->
  test_failed g = test_failed g' ->
  g = g'.
Proof. destruct g, g'; simpl; intros -> -> ->; reflexivity. Qed.

(** X3.  The ledger does not depend on the order in which the assertions are
    recorded: two sequences that are permutations of each other leave the
    same ledger, from whatever ledger they start. *)
Theorem record_order_irrelevant (l l' : list Assertion) (g : ledger) :
  Permutation l l' -> record_all l g = record_all l' g.
Proof.
  intros HP.
  pose proof (count_outcome_permutation true l l' HP) as Hp.
  pose proof (count_outcome_permutation false l l' HP) as Hf.
  apply ledger_eq.
  - rewrite !record_all_result. unfold failures. now rewrite Hf.
  - rewrite !record_all_passed. unfold passes. now rewrite Hp.
  - rewrite !record_all_failed. unfold failures. now rewrite Hf.
Qed.

Lemma record_order_irrelevant_witness :
  Permutation [(false, "SUB"); (true, "ADD"); (true, "AND")]
    [(true, "ADD"); (false, "SUB"); (true, "AND")]
  /\ record_all [(false, "SUB"); (true, "ADD"); (true, "AND")] reset
     = record_all [(true, "ADD"); (false, "SUB"); (true, "AND")] reset.
Proof.
  split; [apply perm_swap|].
  exact (record_order_irrelevant _ _ reset (perm_swap _ _ _)).
Defined.

(** *** The loops and the recursion of the groups *)

Lemma s32_small (x : Z) : - 2 ^ 31 <= x < 2 ^ 31 -> s32 x = x.
Proof. intros H. unfold s32, modulus. rewrite Z.mod_small; lia. Qed.

Lemma for_loop_unfold (i sum : Z) :
  for_loop i sum
  = if Z_lt_dec i 10 then for_loop (add32 i 1) (add32 sum i) else (i, sum).
Proof.
  rewrite for_loop_equation_1. destruct (Z_lt_dec i 10); reflexivity.
Qed.

Lemma while_loop_unfold (i sum : Z) :
  while_loop i sum
  = if Z_lt_dec i 10 then while_loop (add32 i 1) (add32 sum i) else (i, sum).
Proof.
  rewrite while_loop_equation_1. destruct (Z_lt_dec i 10); reflexivity.
Qed.

Lemma recursive_sum_unfold (n : Z) :
  recursive_sum n
  = if Z_le_dec n 0 then 0 else add32 n (recursive_sum (sub32 n 1)).
Proof.
  rewrite recursive_sum_equation_1. destruct (Z_le_dec n 0); reflexivity.
Qed.

Lemma basic_recursive_sum_unfold (n : Z) :
  Basic.recursive_sum n
  = if Z_le_dec n 0 then 0 else add32 n (Basic.recursive_sum (sub32 n 1)).
Proof.
  rewrite Basic.recursive_sum_equation_1. destruct (Z_le_dec n 0); reflexivity.
Qed.

Lemma triangle_step (i : Z) :
  (10 - i) * (i + 9) / 2 = i + (10 - (i + 1)) * (i + 1 + 9) / 2.
Proof.
  replace ((10 - i) * (i + 9)) with ((10 - (i + 1)) * (i + 1 + 9) + i * 2)
    by ring.
  rewrite Z.div_add by lia. lia.
Qed.

Lemma for_loop_sums_aux (k : nat) : forall i sum : Z,
  i = 10 - Z.of_nat k -> 0 <= i ->
  - 2 ^ 31 <= sum -> sum + (10 - i) * (i + 9) / 2 < 2 ^ 31 ->
  for_loop i sum = (10, sum + (10 - i) * (i + 9) / 2).
Proof.
  induction k as [|k IH]; intros i sum Hi Hi0 Hlo Hhi; rewrite for_loop_unfold.
  - destruct (Z_lt_dec i 10) as [Hlt|_]; [lia|].
    replace i with 10 by lia. simpl. now rewrite Z.add_0_r.
  - destruct (Z_lt_dec i 10) as [_|Hge]; [|lia].
    rewrite triangle_step in Hhi |- *.
    assert (H0 : 0 <= (10 - (i + 1)) * (i + 1 + 9) / 2)
      by (apply Z.div_pos; [nia|lia]).
    unfold add32. rewrite (s32_small (i + 1)), (s32_small (sum + i)) by lia.
    rewrite IH; [f_equal; lia|lia|lia|lia|lia].
Qed.

(** The two loops of [test_loops] have the same body and the same test. *)
Lemma while_loop_as_for_loop (i sum : Z) :
  while_loop i sum = for_loop i sum.
Proof.
  remember (distance i 10) as k eqn:Hk.
  revert i sum Hk.
  induction k as [k IH] using lt_wf_ind. intros i sum Hk.
  rewrite while_loop_unfold, for_loop_unfold.
  destruct (Z_lt_dec i 10) as [Hlt|_]; [|reflexivity].
  apply (IH (distance (add32 i 1) 10)); [|reflexivity].
  subst k. now apply distance_succ.
Qed.

(** X4.  The two counting loops of [test_loops], started with any counter
    and any sum, are the same function.  With the counter at 10 or above the
    body is not run and both variables are returned as they are; with the
    counter [i] between 0 and 10 the loop ends with the counter at 10 and has
    added [i + ... + 9], that is [(10 - i) * (i + 9) / 2], to the sum,
    provided the result fits an [int32_t]. *)
Theorem for_loop_sums (i sum : Z) :
  while_loop i sum = for_loop i sum
  /\ (10 <= i -> for_loop i sum = (i, sum))
  /\ (0 <= i <= 10 -> - 2 ^ 31 <= sum ->
      sum + (10 - i) * (i + 9) / 2 < 2 ^ 31 ->
      for_loop i sum = (10, sum + (10 - i) * (i + 9) / 2)).
Proof.
  split; [apply while_loop_as_for_loop|]. split.
  - intros H. rewrite for_loop_unfold.
    destruct (Z_lt_dec i 10); [lia|reflexivity].
  - intros Hi Hlo Hhi.
    apply (for_loop_sums_aux (Z.to_nat (10 - i))); lia.
Qed.

Lemma for_loop_sums_witness :
  10 <= 12
  /\ for_loop 12 7 = (12, 7)
  /\ 0 <= 3 <= 10
  /\ while_loop 3 100 = (10, 100 + 42).
Proof.
  assert (H12 : 10 <= 12) by lia.
  assert (H3 : 0 <= 3 <= 10) by lia.
  split; [exact H12|].
  split; [exact (proj1 (proj2 (for_loop_sums 12 7)) H12)|].
  split; [exact H3|].
  rewrite (proj1 (for_loop_sums 3 100)).
  apply (proj2 (proj2 (for_loop_sums 3 100))); [exact H3|lia|].
  vm_compute. reflexivity.
Defined.

Lemma half_product_step (n : Z) :
  n * (n + 1) / 2 = n + (n - 1) * n / 2.
Proof.
  replace (n * (n + 1)) with ((n - 1) * n + n * 2) by ring.
  rewrite Z.div_add by lia. lia.
Qed.

Lemma half_product_bounds (n : Z) :
  0 <= n <= 65535 -> 0 <= n * (n + 1) / 2 < 2 ^ 31.
Proof.
  intros H. split.
  - apply Z.div_pos; [nia|lia].
  - apply Z.div_lt_upper_bound; [lia|]. nia.
Qed.

Lemma recursive_sum_closed_aux (k : nat) : forall n : Z,
  n = Z.of_nat k -> n <= 65535 ->
  recursive_sum n = n * (n + 1) / 2
  /\ Basic.recursive_sum n = n * (n + 1) / 2.
Proof.
  induction k as [|k IH]; intros n Hn Hle;
    rewrite recursive_sum_unfold, basic_recursive_sum_unfold.
  - subst n. simpl. split; reflexivity.
  - destruct (Z_le_dec n 0) as [Hn0|_]; [lia|].
    unfold sub32. rewrite (s32_small (n - 1)) by lia.
    destruct (IH (n - 1)) as [-> ->]; [lia|lia|].
    replace (n - 1 + 1) with n by lia.
    assert (Hb : 0 <= n * (n + 1) / 2 < 2 ^ 31)
      by (apply half_product_bounds; lia).
    rewrite half_product_step in Hb |- *.
    unfold add32. rewrite s32_small by lia.
    split; reflexivity.
Qed.

(** X5.  [recursive_sum], in the full version and in the basic one: for an
    argument that is zero or negative it returns 0 without recursing; for
    [n] from 0 to 65535 it returns [n * (n + 1) / 2], which fits an
    [int32_t]; from 65536 on that value no longer fits. *)
Theorem recursive_sum_closed_form (n : Z) :
  (n <= 0 -> recursive_sum n = 0 /\ Basic.recursive_sum n = 0)
  /\ (0 <= n <= 65535 ->
      recursive_sum n = n * (n + 1) / 2
      /\ Basic.recursive_sum n = n * (n + 1) / 2
      /\ 0 <= recursive_sum n < 2 ^ 31)
  /\ 2 ^ 31 <= 65536 * (65536 + 1) / 2.
Proof.
  split; [|split].
  - intros H. rewrite recursive_sum_unfold, basic_recursive_sum_unfold.
    destruct (Z_le_dec n 0); [split; reflexivity|lia].
  - intros H.
    destruct (recursive_sum_closed_aux (Z.to_nat n) n) as [E1 E2]; [lia|lia|].
    split; [exact E1|]. split; [exact E2|].
    rewrite E1. now apply half_product_bounds.
  - vm_compute. discriminate.
Qed.

Lemma recursive_sum_closed_form_witness :
  -3 <= 0
  /\ recursive_sum (-3) = 0
  /\ 0 <= 1000 <= 65535
  /\ recursive_sum 1000 = 1000 * (1000 + 1) / 2.
Proof.
  assert (H3 : -3 <= 0) by lia.
  assert (H : 0 <= 1000 <= 65535) by lia.
  split; [exact H3|].
  split; [exact (proj1 (proj1 (recursive_sum_closed_form (-3)) H3))|].
  split; [exact H|].
  exact (proj1 (proj1 (proj2 (recursive_sum_closed_form 1000)) H)).
Defined.

(** *** The groups, one by one *)

Lemma all_pass_adds (labels : list string) (g : ledger) :
  labels <> [] ->
  test_passed (record_all (map (pair true) labels) g)
  = u32 (test_passed g + Z.of_nat (List.length labels))
  /\ test_failed (record_all (map (pair true) labels) g) = test_failed g
  /\ test_result (record_all (map (pair true) labels) g) = test_result g.
Proof.
  intros Hne.
  assert (Hp : passes (map (pair true) labels) = List.length labels).
  { unfold passes. clear Hne. induction labels as [|x l IH]; [reflexivity|].
    simpl map. rewrite count_outcome_cons, IH. reflexivity. }
  assert (Hf : failures (map (pair true) labels) = 0%nat).
  { unfold failures. clear Hne Hp. induction labels as [|x l IH]; [reflexivity|].
    simpl map. rewrite count_outcome_cons, IH. reflexivity. }
  rewrite record_all_passed, record_all_failed, record_all_result, Hp, Hf.
  destruct labels as [|x l]; [easy|]. repeat split; reflexivity.
Qed.

Ltac group_passes labels :=
  intros g;
  match goal with
  | |- test_passed ?r = _ /\ _ =>
      replace r with (record_all (map (pair true) labels) g)
        by (lazy -[ASSERT]; reflexivity)
  end;
  apply (all_pass_adds labels g); discriminate.

(** X6.  Each of the nine groups of the full version records a fixed number
    of assertions (12, 6, 7, 6, 2, 2, 7, 3 and 2) and all of them pass,
    whatever the ledger holds when the group starts and wherever the linker
    puts the code: the group adds that number to [test_passed] and changes
    neither [test_failed] nor [test_result]. *)
Theorem groups_pass_from_any_ledger (pc : Z) :
  adds_passes (test_arithmetic ASSERT) 12
  /\ adds_passes (test_memory ASSERT) 6
  /\ adds_passes (test_explicit_instructions ASSERT) 7
  /\ adds_passes (test_branches ASSERT) 6
  /\ adds_passes (test_loops ASSERT) 2
  /\ adds_passes (test_functions ASSERT) 2
  /\ adds_passes (test_immediates ASSERT) 7
  /\ adds_passes (test_upper_immediates ASSERT pc) 3
  /\ adds_passes (test_jumps ASSERT) 2.
Proof.
  unfold adds_passes.
  split; [group_passes
            ["ADD"; "SUB"; "AND"; "OR"; "XOR"; "SLLI"; "SRLI"; "SRL"; "SRAI";
             "SLT"; "SLT"; "SLTU"]|].
  split; [group_passes
            ["LW"; "SW"; "LB sign extend"; "LBU zero extend";
             "LH sign extend"; "LHU zero extend"]|].
  split; [group_passes ["LB"; "LH"; "SB"; "SH"; "SRL"; "SLL"; "SRA"]|].
  split; [group_passes ["BEQ"; "BNE"; "BLT"; "BGE"; "BLTU"; "BGEU"]|].
  split; [group_passes ["for loop"; "while loop"]|].
  split; [group_passes ["function call"; "recursive function"]|].
  split; [group_passes
            ["ADDI"; "ANDI"; "ORI"; "XORI"; "SLTI"; "SLTI"; "SLTIU"]|].
  split; [|group_passes ["JAL"; "JALR"]].
  intros g. unfold test_upper_immediates. cbv zeta. rewrite auipc_delta.
  revert g. group_passes ["LUI"; "LUI large"; "AUIPC"].
Qed.

(** *** The basic version *)

(** X7.  [main] of the basic version records 31 assertions, all of which
    pass, and returns 0; run from any ledger it adds 31 to [test_passed] and
    nothing else.  None of the six assertions of [test_memory] is among them
    (its call is commented out), although the group, were it called, would
    pass from any ledger. *)
Theorem basic_main_skips_memory :
  Basic.main_ledger
  = {| test_result := 0; test_passed := 31; test_failed := 0 |}
  /\ Basic.main = 0
  /\ Basic.main_ledger = record_all Basic.main_journal reset
  /\ List.length Basic.main_journal = 31%nat
  /\ (forall a, In a Basic.main_journal -> outcome a = true)
  /\ (forall a, In a (test_memory journal []) -> ~ In a Basic.main_journal)
  /\ adds_passes (test_memory ASSERT) 6
  /\ adds_passes (Basic.run_all_tests ASSERT) 31.
Proof.
  split; [vm_compute; reflexivity|].
  split; [vm_compute; reflexivity|].
  split; [vm_compute; reflexivity|].
  split; [vm_compute; reflexivity|].
  split; [apply Forall_forall; vm_compute; repeat constructor|].
  split.
  - apply Forall_forall. vm_compute.
    repeat (constructor;
            [intros H; repeat (destruct H as [H|H]; [discriminate|]); exact H|]).
    constructor.
  - split; unfold adds_passes.
    + group_passes ["LW"; "SW"; "LB sign extend"; "LBU zero extend";
                    "LH sign extend"; "LHU zero extend"].
    + group_passes
        ["ADD"; "SUB"; "AND"; "OR"; "XOR"; "SLL"; "SRL"; "SRA"; "SLT"; "SLT";
         "SLTU"; "BEQ"; "BNE"; "BLT"; "BGE"; "BLTU"; "BGEU"; "for loop";
         "while loop"; "function call"; "recursive function"; "ADDI"; "ANDI";
         "ORI"; "XORI"; "SLTI"; "SLTI"; "SLTIU"; "LUI"; "upper immediate";
         "JAL/JALR"].
Qed.

End HarnessExtra.

(** * Properties of [small.c] *)

Module SmallFacts.

Import Word Small.

Lemma fib_unfold (n : Z) :
  fib n
  = if Z_le_dec n 1 then n else add32 (fib (sub32 n 1)) (fib (sub32 n 2)).
Proof.
  rewrite fib_equation_1. destruct (Z_le_dec n 1); reflexivity.
Qed.

Lemma fibonacci_pair_next (k : nat) :
  fibonacci_pair (S k)
  = (snd (fibonacci_pair k), fst (fibonacci_pair k) + snd (fibonacci_pair k)).
Proof. simpl. now destruct (fibonacci_pair k). Qed.

Lemma fibonacci_step (k : nat) :
  fibonacci (S (S k)) = fibonacci k + fibonacci (S k).
Proof.
  unfold fibonacci. rewrite !fibonacci_pair_next. reflexivity.
Qed.

Lemma fibonacci_pair_nonneg (k : nat) :
  0 <= fst (fibonacci_pair k) /\ 0 <= snd (fibonacci_pair k).
Proof.
  induction k as [|k [IH1 IH2]]; [simpl; lia|].
  rewrite fibonacci_pair_next. simpl. lia.
Qed.

Lemma fibonacci_nonneg (k : nat) : 0 <= fibonacci k.
Proof. apply fibonacci_pair_nonneg. Qed.

Lemma fibonacci_succ_le (k : nat) : fibonacci k <= fibonacci (S k).
Proof.
  destruct k as [|k]; [vm_compute; discriminate|].
  rewrite fibonacci_step. pose proof (fibonacci_nonneg k). lia.
Qed.

Lemma fibonacci_le (k m : nat) :
  (k <= m)%nat -> fibonacci k <= fibonacci m.
Proof.
  induction 1 as [|m _ IH]; [lia|].
  pose proof (fibonacci_succ_le m). lia.
Qed.

Lemma fibonacci_46 : fibonacci 46 = 1836311903.
Proof. vm_compute. reflexivity. Qed.

Lemma fib_fibonacci_aux (k : nat) :
  ((k <= 46)%nat -> fib (Z.of_nat k) = fibonacci k)
  /\ ((S k <= 46)%nat -> fib (Z.of_nat (S k)) = fibonacci (S k)).
Proof.
  induction k as [|k [IH1 IH2]].
  - split; intros _; rewrite fib_unfold; reflexivity.
  - split; [exact IH2|]. intros Hk.
    rewrite fib_unfold.
    destruct (Z_le_dec (Z.of_nat (S (S k))) 1) as [Hle|_]; [lia|].
    unfold sub32.
    rewrite (HarnessExtra.s32_small (Z.of_nat (S (S k)) - 1)) by lia.
    rewrite (HarnessExtra.s32_small (Z.of_nat (S (S k)) - 2)) by lia.
    replace (Z.of_nat (S (S k)) - 1) with (Z.of_nat (S k)) by lia.
    replace (Z.of_nat (S (S k)) - 2) with (Z.of_nat k) by lia.
    rewrite IH1, IH2 by lia.
    pose proof (fibonacci_nonneg (S (S k))) as H0.
    pose proof (fibonacci_le (S (S k)) 46 Hk) as H1.
    rewrite fibonacci_46, fibonacci_step in *.
    unfold add32. rewrite HarnessExtra.s32_small by lia. lia.
Qed.

(** X8.  [fib] returns its argument when that is 1 or less, a negative
    argument included; for [n] from 0 to 46 it returns the [n]-th Fibonacci
    number, which lies between 0 and 1836311903 and so fits an [int]; the
    47th Fibonacci number does not. *)
Theorem fib_is_fibonacci (n : Z) :
  (n <= 1 -> fib n = n)
  /\ (0 <= n <= 46 ->
      fib n = fibonacci (Z.to_nat n) /\ 0 <= fib n <= 1836311903)
  /\ 2 ^ 31 <= fibonacci 47.
Proof.
  split; [|split].
  - intros H. rewrite fib_unfold. destruct (Z_le_dec n 1); [reflexivity|lia].
  - intros H.
    assert (E : fib n = fibonacci (Z.to_nat n)).
    { pose proof (proj1 (fib_fibonacci_aux (Z.to_nat n))) as Hk.
      rewrite Z2Nat.id in Hk by lia. apply Hk. lia. }
    split; [exact E|]. rewrite E.
    pose proof (fibonacci_nonneg (Z.to_nat n)).
    pose proof (fibonacci_le (Z.to_nat n) 46) as Hle.
    rewrite fibonacci_46 in Hle. lia.
  - vm_compute. discriminate.
Qed.

(** The three calls of [main]: [fib(4)], [fib(6)] and [fib(12)]. *)
Lemma fib_is_fibonacci_witness :
  -5 <= 1
  /\ fib (-5) = -5
  /\ 0 <= 12 <= 46
  /\ fib 12 = fibonacci (Z.to_nat 12)
  /\ Small.main = ((fibonacci 4, fibonacci 6, fibonacci 12), 0).
Proof.
  assert (H5 : -5 <= 1) by lia.
  assert (H12 : 0 <= 12 <= 46) by lia.
  split; [exact H5|].
  split; [exact (proj1 (fib_is_fibonacci (-5)) H5)|].
  split; [exact H12|].
  split; [exact (proj1 (proj1 (proj2 (fib_is_fibonacci 12)) H12))|].
  vm_compute. reflexivity.
Defined.

End SmallFacts.

(** * Further properties of the Makefile *)

Module MakeExtra.

Import Make MakeFacts.

(** *** The check reads the listing as a bag of words *)

Lemma word_only_app (s t : string) :
  word_only (s ++ t) = word_only s && word_only t.
Proof.
  induction s as [|c s IH]; simpl; [reflexivity|].
  now rewrite IH, andb_assoc.
Qed.

Lemma In_flush (a cur : string) :
  In a (flush cur) <-> cur <> EmptyString /\ a = cur.
Proof.
  destruct cur as [|c cur]; simpl.
  - split; [intros []|intros [H _]; now apply H].
  - split.
    + intros [<-|[]]. split; [discriminate|reflexivity].
    + intros [_ ->]. now left.
Qed.

Lemma match_from_empty (a : string) (prev : bool) :
  mnemonic a -> match_from prev a "" = false.
Proof.
  intros Hm. destruct (match_from prev a "") eqn:E; [|reflexivity].
  apply (match_from_spec a Hm) in E. destruct E as (pre & post & E & _).
  destruct pre; [|discriminate]. simpl in E.
  destruct Hm as [Hne _]. destruct a; [easy|discriminate].
Qed.

Lemma match_here_nonword (a : string) (prev : bool) (c : ascii) (s : string) :
  mnemonic a -> is_word_char c = false -> match_here prev a (String c s) = false.
Proof.
  intros Hm Hc. destruct (match_here prev a (String c s)) eqn:E; [|reflexivity].
  apply (match_here_spec a prev _ Hm) in E. destruct E as (_ & post & E & _).
  destruct Hm as [Hne Hw]. destruct a as [|c' a]; [easy|].
  simpl in E. injection E as <- _. simpl in Hw. rewrite Hc in Hw. discriminate.
Qed.

Lemma words_acc_spec (a : string) :
  mnemonic a ->
  forall (s cur : string),
    In a (words_acc cur s)
    <-> (cur <> EmptyString
         /\ exists r q, s = (r ++ q)%string /\ word_only r = true
                        /\ starts_with_word q = false
                        /\ a = (cur ++ r)%string)
        \/ match_from (negb (String.eqb cur "")) a s = true.
Proof.
  intros Hm s. induction s as [|c s IH]; intros cur.
  - simpl words_acc. rewrite In_flush, (match_from_empty a _ Hm). split.
    + intros [Hne ->]. left. split; [exact Hne|].
      exists ""%string, ""%string.
      repeat split; try reflexivity. now rewrite append_empty_r.
    + intros [(Hne & r & q & E & _ & _ & ->)|H]; [|discriminate].
      destruct r; [|discriminate]. now rewrite append_empty_r.
  - simpl words_acc. simpl match_from.
    destruct (is_word_char c) eqn:Hc.
    + rewrite IH. clear IH.
      replace (negb (String.eqb (cur ++ String c "") "")) with true
        by (now destruct cur).
      rewrite orb_true_iff. rewrite (match_here_spec a _ _ Hm).
      split.
      * intros [(_ & r & q & -> & Hr & Hq & ->)|H]; [|now right; right].
        destruct cur as [|c0 cur].
        -- right. left. split; [reflexivity|]. exists q. auto.
        -- left. split; [discriminate|].
           exists (String c r), q. simpl word_only. rewrite Hc, Hr.
           repeat split; trivial. now rewrite append_assoc.
      * intros [(Hne & r & q & E & Hr & Hq & ->)|[(Hp & post & E & Hpost)|H]].
        -- left. split; [now destruct cur|].
           destruct r as [|c' r].
           ++ simpl in E. subst q. simpl in Hq. congruence.
           ++ simpl in E. injection E as <- ->.
              simpl in Hr. apply andb_prop in Hr as [_ Hr].
              exists r, q. repeat split; trivial. now rewrite append_assoc.
        -- left. split; [now destruct cur|].
           destruct cur as [|c0 cur]; [|discriminate].
           destruct Hm as [Hne Hw]. destruct a as [|c' a]; [easy|].
           simpl in E. injection E as <- ->.
           simpl in Hw. apply andb_prop in Hw as [_ Hw].
           exists a, post. auto.
        -- now right.
    + rewrite in_app_iff, In_flush, IH. clear IH.
      rewrite (match_here_nonword a _ c s Hm Hc). simpl.
      split.
      * intros [[Hne ->]|[(Habs & _)|H]]; [|easy|now right].
        left. split; [exact Hne|].
        exists ""%string, (String c s). simpl. rewrite Hc, append_empty_r. auto.
      * intros [(Hne & r & q & E & Hr & Hq & ->)|H]; [|now right; right].
        left. split; [exact Hne|].
        destruct r as [|c' r]; [now rewrite append_empty_r|].
        simpl in E. injection E as <- _. simpl in Hr. rewrite Hc in Hr.
        discriminate.
Qed.

Lemma line_matches_words (insn line : string) :
  mnemonic insn -> line_matches insn line = true <-> In insn (words line).
Proof.
  intros Hm.
  unfold words, line_matches. rewrite (words_acc_spec insn Hm line "").
  simpl. split; [now right|].
  intros [(Habs & _)|H]; [now elim Habs|exact H].
Qed.

Lemma grep_words_iff (insn : string) (DUMP : list string) :
  mnemonic insn ->
  grep_qE_word insn DUMP = true <-> In insn (flat_map words DUMP).
Proof.
  intros Hm. unfold grep_qE_word. rewrite existsb_exists, in_flat_map.
  split; intros (line & Hin & H); exists line; split; trivial;
    now apply (line_matches_words insn line Hm).
Qed.

(** *** The listing as a set of lines *)

Lemma grep_incl (insn : string) (DUMP DUMP' : list string) :
  incl DUMP DUMP' ->
  grep_qE_word insn DUMP = true -> grep_qE_word insn DUMP' = true.
Proof.
  unfold grep_qE_word. rewrite !existsb_exists.
  intros Hincl (line & Hin & H). exists line. split; [now apply Hincl|exact H].
Qed.

Lemma absent_ext (DUMP DUMP' insns : list string) :
  (forall insn, In insn insns ->
                grep_qE_word insn DUMP = grep_qE_word insn DUMP') ->
  absent DUMP insns = absent DUMP' insns.
Proof.
  intros H. unfold absent. apply filter_ext_in.
  intros insn Hin. now rewrite (H insn Hin).
Qed.

Lemma verify_recipe_absent (insns DUMP DUMP' : list string) :
  absent DUMP insns = absent DUMP' insns ->
  verify_recipe insns DUMP = verify_recipe insns DUMP'.
Proof.
  intros E. destruct (absent DUMP insns) as [|x l] eqn:Ea.
  - rewrite !verify_recipe_all_present; trivial. now symmetry.
  - rewrite (verify_recipe_some_absent insns DUMP) by (rewrite Ea; discriminate).
    rewrite (verify_recipe_some_absent insns DUMP')
      by (rewrite <- E; discriminate).
    now rewrite <- E, Ea.
Qed.

(** X11.  Lines added to the listing never add to the report: when every
    line of [DUMP] is also in [DUMP'], the mnemonics reported missing for
    [DUMP'] are those reported for [DUMP] that are still not found, in the
    same order, and if the check succeeds on [DUMP] it succeeds on
    [DUMP']. *)
Theorem more_lines_less_missing (insns DUMP DUMP' : list string) :
  incl DUMP DUMP' ->
  absent DUMP' insns = absent DUMP' (absent DUMP insns)
  /\ incl (absent DUMP' insns) (absent DUMP insns)
  /\ (snd (verify_recipe insns DUMP) = 0 ->
      snd (verify_recipe insns DUMP') = 0).
Proof.
  intros Hincl.
  assert (E : absent DUMP' insns = absent DUMP' (absent DUMP insns)).
  { unfold absent. induction insns as [|insn insns IH]; [reflexivity|].
    simpl. destruct (grep_qE_word insn DUMP) eqn:Hg; simpl.
    - now rewrite (grep_incl insn DUMP DUMP' Hincl Hg).
    - destruct (grep_qE_word insn DUMP'); simpl; now rewrite IH. }
  split; [exact E|]. split.
  - rewrite E. intros insn Hin. now apply absent_In in Hin.
  - rewrite !verify_recipe_status, E.
    destruct (absent DUMP insns); [reflexivity|discriminate].
Qed.

Lemma more_lines_less_missing_witness :
  incl ["10:	add	a0,a0,a1"] ["10:	add	a0,a0,a1"; "14:	sub	a0,a0,a1"]
  /\ absent ["10:	add	a0,a0,a1"] ["add"; "sub"; "xor"] = ["sub"; "xor"]
  /\ absent ["10:	add	a0,a0,a1"; "14:	sub	a0,a0,a1"] ["add"; "sub"; "xor"]
     = absent ["10:	add	a0,a0,a1"; "14:	sub	a0,a0,a1"]
         (absent ["10:	add	a0,a0,a1"] ["add"; "sub"; "xor"]).
Proof.
  assert (H : incl ["10:	add	a0,a0,a1"]
                ["10:	add	a0,a0,a1"; "14:	sub	a0,a0,a1"])
    by (intros x [<-|[]]; now left).
  split; [exact H|]. split; [vm_compute; reflexivity|].
  exact (proj1 (more_lines_less_missing ["add"; "sub"; "xor"] _ _ H)).
Defined.

(** X12.  The recipe depends on the listing only through the set of its
    lines: two listings with the same lines, in any order and with any
    repetitions, give the same output and the same exit status. *)
Theorem listing_is_a_set_of_lines (insns DUMP DUMP' : list string) :
  (forall line, In line DUMP <-> In line DUMP') ->
  verify_recipe insns DUMP = verify_recipe insns DUMP'.
Proof.
  intros H. apply verify_recipe_absent, absent_ext. intros insn _.
  destruct (grep_qE_word insn DUMP) eqn:Hg.
  - symmetry. apply (grep_incl insn DUMP DUMP'); [|exact Hg].
    intros line. apply H.
  - destruct (grep_qE_word insn DUMP') eqn:Hg'; [|reflexivity].
    pose proof (grep_incl insn DUMP' DUMP (fun line => proj2 (H line)) Hg').
    congruence.
Qed.

Lemma listing_is_a_set_of_lines_witness :
  (forall line,
     In line ["14:	sub	a0,a0,a1"; "10:	add	a0,a0,a1"; "14:	sub	a0,a0,a1"]
     <-> In line ["10:	add	a0,a0,a1"; "14:	sub	a0,a0,a1"])
  /\ verify_recipe ["add"; "sub"; "xor"]
       ["14:	sub	a0,a0,a1"; "10:	add	a0,a0,a1"; "14:	sub	a0,a0,a1"]
     = verify_recipe ["add"; "sub"; "xor"]
         ["10:	add	a0,a0,a1"; "14:	sub	a0,a0,a1"].
Proof.
  assert (H : forall line,
     In line ["14:	sub	a0,a0,a1"; "10:	add	a0,a0,a1"; "14:	sub	a0,a0,a1"]
     <-> In line ["10:	add	a0,a0,a1"; "14:	sub	a0,a0,a1"])
    by (intros line; simpl; tauto).
  split; [exact H|].
  exact (listing_is_a_set_of_lines ["add"; "sub"; "xor"] _ _ H).
Defined.

(** *** Empty inputs and the printed count *)

Lemma absent_empty_listing (insns : list string) : absent [] insns = insns.
Proof.
  unfold absent. induction insns as [|insn insns IH]; [reflexivity|].
  cbn [filter]. change (grep_qE_word insn []) with false.
  cbn [negb]. now rewrite IH.
Qed.

(** X13.  With nothing required the recipe succeeds on any listing; on an
    empty listing everything required is reported, in order, so the check of
    the Makefile prints its 37 mnemonics and exits with 1. *)
Theorem empty_inputs (DUMP required : list string) :
  verify_recipe [] DUMP
  = (["Checking RV32I instruction coverage...";
      "  All RV32I instructions present in dump."], 0)
  /\ report_missing (verify [] required) = required
  /\ (report_ok (verify [] required) = true <-> required = [])
  /\ verify_instructions []
     = ("Checking RV32I instruction coverage..."
        :: map missing_line RV32I_insns
        ++ ["  37 instruction(s) not found."], 1).
Proof.
  split; [now apply verify_recipe_all_present|].
  rewrite verify_spec, absent_empty_listing. simpl.
  split; [reflexivity|]. split.
  - destruct required; split; congruence.
  - vm_compute. reflexivity.
Qed.

(** X14.  The recipe prints the header, one [MISSING:] line for each
    mnemonic it does not find and one closing line, and the number in the
    closing line is the number of [MISSING:] lines printed. *)
Theorem printed_count_is_consistent (insns DUMP : list string) :
  List.length (fst (verify_recipe insns DUMP))
  = (2 + List.length (reported (fst (verify_recipe insns DUMP))))%nat
  /\ last (fst (verify_recipe insns DUMP)) ""
     = (if snd (verify_recipe insns DUMP) =? 0
        then "  All RV32I instructions present in dump."
        else ("  "
              ++ decimal
                   (Z.of_nat
                      (List.length
                         (reported (fst (verify_recipe insns DUMP)))))
              ++ " instruction(s) not found.")%string)
  /\ (snd (verify_recipe insns DUMP) = 0 \/ snd (verify_recipe insns DUMP) = 1).
Proof.
  rewrite verify_recipe_reported.
  destruct (absent DUMP insns) as [|x l] eqn:E.
  - rewrite verify_recipe_all_present by exact E. simpl. auto.
  - rewrite verify_recipe_some_absent by (rewrite E; discriminate).
    rewrite E. cbn [fst snd]. split; [|split; [|now right]].
    + cbn [List.length]. rewrite length_app, length_map. simpl. lia.
    + change ("Checking RV32I instruction coverage..."
              :: map missing_line (x :: l) ++ ?t)
        with (("Checking RV32I instruction coverage..."
               :: map missing_line (x :: l)) ++ t).
      now rewrite last_last.
Qed.

(** *** [check-toolchain] after the detection *)

(** X15.  Without an override the detected prefix is always one of the four
    candidates, never a path; and [check-toolchain] lets the build go on
    exactly when the compiler of some candidate is on the search path or
    [riscv64-unknown-elf-gcc] is a file in one of the two installation
    directories.  In the latter case alone the check passes although the
    command [CC] is not on the search path. *)
Theorem check_after_detection (h : Host) :
  In (TOOLCHAIN_PREFIX None h) candidate_prefixes
  /\ (CHECK_TOOLCHAIN None h = true
      <-> (exists prefix, In prefix candidate_prefixes
                          /\ on_search_path h prefix = true)
          \/ test_f h "/opt/homebrew/bin/riscv64-unknown-elf-gcc" = true
          \/ test_f h "/usr/local/bin/riscv64-unknown-elf-gcc" = true)
  /\ CHECK_TOOLCHAIN None
       (mkHost (fun _ => false)
          (String.eqb "/opt/homebrew/bin/riscv64-unknown-elf-gcc")) = true
  /\ command_v
       (mkHost (fun _ => false)
          (String.eqb "/opt/homebrew/bin/riscv64-unknown-elf-gcc"))
       (CC None
          (mkHost (fun _ => false)
             (String.eqb "/opt/homebrew/bin/riscv64-unknown-elf-gcc")))
     = false.
Proof.
  split; [|split; [|split; vm_compute; reflexivity]].
  - unfold TOOLCHAIN_PREFIX, detect, candidate_prefixes.
    repeat match goal with
           | |- context [if ?b then _ else _] => destruct b
           end; simpl; auto.
  - unfold CHECK_TOOLCHAIN, CC, TOOLCHAIN_PREFIX, detect, candidate_prefixes,
      on_search_path.
    destruct (command_v h "riscv64-unknown-elf-gcc") eqn:E1.
    { cbn [append]. rewrite E1. simpl. split; [|reflexivity]. intros _.
      left. exists "riscv64-unknown-elf-". split; [simpl; auto|exact E1]. }
    destruct (command_v h "riscv32-unknown-elf-gcc") eqn:E2.
    { cbn [append]. rewrite E2. simpl. split; [|reflexivity]. intros _.
      left. exists "riscv32-unknown-elf-". split; [simpl; auto|exact E2]. }
    destruct (command_v h "riscv64-linux-gnu-gcc") eqn:E3.
    { cbn [append]. rewrite E3. simpl. split; [|reflexivity]. intros _.
      left. exists "riscv64-linux-gnu-". split; [simpl; auto|exact E3]. }
    destruct (command_v h "riscv32-linux-gnu-gcc") eqn:E4.
    { cbn [append]. rewrite E4. simpl. split; [|reflexivity]. intros _.
      left. exists "riscv32-linux-gnu-". split; [simpl; auto|exact E4]. }
    assert (Hnone : ~ exists prefix,
               In prefix
                 ["riscv64-unknown-elf-"; "riscv32-unknown-elf-";
                  "riscv64-linux-gnu-"; "riscv32-linux-gnu-"]
               /\ command_v h (prefix ++ "gcc") = true).
    { intros (prefix & Hin & Hp). simpl in Hin.
      destruct Hin as [<-|[<-|[<-|[<-|[]]]]]; cbn [append] in Hp; congruence. }
    destruct (test_f h "/opt/homebrew/bin/riscv64-unknown-elf-gcc") eqn:E5;
      destruct (test_f h "/usr/local/bin/riscv64-unknown-elf-gcc") eqn:E6;
      cbn [append]; rewrite E1, E5, E6; simpl;
      (split; [intros H; auto; discriminate|]); auto;
      intros [H|[H|H]]; try discriminate; now elim Hnone.
Qed.

End MakeExtra.

(** * The coverage check in the locale of the caller *)

Module LocaleFacts.

Import Make MakeFacts MakeExtra.

(** *** The word class of the C locale, and the others on ASCII text *)

Lemma is_word_char_class (c : ascii) :
  is_word_char c
  = existsb (Ascii.eqb c) (list_ascii_of_string word_characters).
Proof. destruct c as [[] [] [] [] [] [] [] []]; vm_compute; reflexivity. Qed.

Lemma is_word_char_ascii (c : ascii) :
  is_word_char c = true -> ascii_char c = true.
Proof.
  destruct c as [[] [] [] [] [] [] [] []]; vm_compute; intros H;
    solve [reflexivity | discriminate].
Qed.

Lemma posix_on_ascii_C : posix_on_ascii is_word_char.
Proof. intros c _. reflexivity. Qed.

Lemma posix_on_ascii_high : posix_on_ascii word_high_letters.
Proof.
  intros c Hc. unfold word_high_letters. rewrite Hc. apply orb_false_r.
Qed.

Section Agreement.

Variable word : ascii -> bool.
Hypothesis Hword : posix_on_ascii word.

Lemma word_of_posix (c : ascii) : is_word_char c = true -> word c = true.
Proof.
  intros H. rewrite (Hword c (is_word_char_ascii c H)). exact H.
Qed.

Lemma nonword_of_locale (c : ascii) : word c = false -> is_word_char c = false.
Proof.
  intros H. destruct (is_word_char c) eqn:E; [|reflexivity].
  rewrite (word_of_posix c E) in H. discriminate.
Qed.

Lemma word_only_ascii (s : string) : word_only s = true -> ascii_only s = true.
Proof.
  induction s as [|c s IH]; simpl; [reflexivity|].
  intros H. apply andb_prop in H as [Hc Hs].
  now rewrite (is_word_char_ascii c Hc), IH.
Qed.

Lemma starts_agree (s : string) :
  ascii_only s = true -> starts_with_word_in word s = starts_with_word s.
Proof.
  destruct s as [|c s]; simpl; [reflexivity|].
  intros H. apply andb_prop in H as [Hc _]. now apply Hword.
Qed.

Lemma ends_agree (s : string) : forall prev,
  ascii_only s = true -> ends_in_word_in word prev s = ends_in_word prev s.
Proof.
  induction s as [|c s IH]; intros prev; simpl; [reflexivity|].
  intros H. apply andb_prop in H as [Hc Hs].
  rewrite (Hword c Hc). now apply IH.
Qed.

Lemma drop_prefix_ascii (p s rest : string) :
  drop_prefix p s = Some rest -> ascii_only s = true -> ascii_only rest = true.
Proof.
  revert s. induction p as [|a p IH]; intros s; simpl.
  - now intros [= ->].
  - destruct s as [|b s]; [discriminate|].
    destruct (Ascii.eqb a b); [|discriminate].
    intros E H. simpl in H. apply andb_prop in H as [_ Hs]. now apply (IH s).
Qed.

Lemma match_here_agree (prev : bool) (insn line : string) :
  ascii_only insn = true -> ascii_only line = true ->
  match_here_in word prev insn line = match_here prev insn line.
Proof.
  intros Hi Hl. unfold match_here_in, match_here.
  destruct (drop_prefix insn line) as [rest|] eqn:E; [|reflexivity].
  rewrite (starts_agree line Hl), (ends_agree insn prev Hi).
  now rewrite (starts_agree rest (drop_prefix_ascii _ _ _ E Hl)).
Qed.

Lemma match_from_agree (insn line : string) : forall prev,
  ascii_only insn = true -> ascii_only line = true ->
  match_from_in word prev insn line = match_from prev insn line.
Proof.
  induction line as [|c line IH]; intros prev Hi Hl.
  - simpl. now rewrite match_here_agree.
  - simpl match_from_in. simpl match_from.
    rewrite (match_here_agree prev insn (String c line) Hi Hl).
    simpl in Hl. apply andb_prop in Hl as [Hc Hl].
    now rewrite (Hword c Hc), IH.
Qed.

Lemma grep_agree (insn : string) (DUMP : list string) :
  ascii_only insn = true -> ascii_listing DUMP ->
  grep_in word insn DUMP = grep_qE_word insn DUMP.
Proof.
  intros Hi HD. unfold grep_in, grep_qE_word.
  induction DUMP as [|line DUMP IH]; [reflexivity|].
  simpl. unfold line_matches_in, line_matches.
  rewrite (match_from_agree insn line false Hi (HD line (or_introl eq_refl))).
  f_equal. apply IH. intros l Hl. apply HD. now right.
Qed.

(** On any text: what [grep] finds in the locale is a token of the C
    locale, because a character that is no word constituent in the locale
    is none in the C locale either. *)
Lemma starts_in_mnemonic (insn rest : string) :
  mnemonic insn -> starts_with_word_in word (insn ++ rest) = true.
Proof.
  intros [Hne Hw]. destruct insn as [|c insn]; [easy|].
  simpl in *. apply andb_prop in Hw as [Hc _]. now apply word_of_posix.
Qed.

Lemma ends_in_mnemonic (insn : string) :
  mnemonic insn -> forall prev, ends_in_word_in word prev insn = true.
Proof.
  intros [Hne Hw]. destruct insn as [|c insn]; [easy|]. clear Hne.
  revert c Hw. induction insn as [|d insn IH]; intros c Hw prev.
  - simpl in *. apply andb_prop in Hw as [Hc _]. now apply word_of_posix.
  - simpl in Hw. apply andb_prop in Hw as [_ Hw].
    change (ends_in_word_in word (word c) (String d insn) = true).
    now apply IH.
Qed.

Lemma match_here_mono (prev prev' : bool) (insn line : string) :
  mnemonic insn ->
  (prev' = true -> prev = true) ->
  match_here_in word prev insn line = true ->
  match_here prev' insn line = true.
Proof.
  intros Hm Hp H. apply (match_here_spec insn prev' line Hm).
  unfold match_here_in, word_boundary in H.
  destruct (drop_prefix insn line) as [rest|] eqn:E; [|discriminate].
  apply drop_prefix_spec in E. subst line.
  rewrite (starts_in_mnemonic insn rest Hm) in H.
  rewrite (ends_in_mnemonic insn Hm prev) in H.
  apply andb_prop in H as [H1 H2].
  split.
  - destruct prev'; [|reflexivity]. rewrite (Hp eq_refl) in H1. discriminate.
  - exists rest. split; [reflexivity|].
    destruct rest as [|c rest]; [reflexivity|].
    simpl in *. apply nonword_of_locale.
    now destruct (word c).
Qed.

Lemma match_from_mono (insn line : string) :
  mnemonic insn ->
  forall prev prev' : bool,
    (prev' = true -> prev = true) ->
    match_from_in word prev insn line = true ->
    match_from prev' insn line = true.
Proof.
  intros Hm. induction line as [|c line IH]; intros prev prev' Hp H.
  - simpl in *. rewrite orb_false_r in *. now apply (match_here_mono prev).
  - simpl match_from_in in H. simpl match_from.
    apply orb_true_iff in H as [H|H]; apply orb_true_iff.
    + left. now apply (match_here_mono prev).
    + right. apply (IH (word c)); [apply word_of_posix|exact H].
Qed.

Lemma grep_in_present (insn : string) (DUMP : list string) :
  mnemonic insn -> grep_in word insn DUMP = true -> present insn DUMP.
Proof.
  intros Hm H. unfold grep_in in H. apply existsb_exists in H.
  destruct H as (line & Hin & H). exists line. split; [exact Hin|].
  apply (line_matches_iff insn line Hm).
  now apply (match_from_mono insn line Hm false false).
Qed.

End Agreement.

(** *** The recipe over any [grep] *)

Section AnyGrep.

Variable grep : string -> list string -> bool.

Lemma loop_spec_with (DUMP : list string) (insns : list string) :
  forall sh : shell,
    fold_left (loop_body_with grep DUMP) insns sh
    = {| missing := missing sh
                    + Z.of_nat (List.length (absent_with grep DUMP insns));
         stdout := stdout sh ++ map missing_line (absent_with grep DUMP insns)
      |}.
Proof.
  unfold absent_with.
  induction insns as [|insn insns IH]; intros sh.
  - simpl. rewrite Z.add_0_r, app_nil_r. now destruct sh.
  - simpl fold_left. rewrite IH. unfold loop_body_with. simpl filter.
    destruct (negb (grep insn DUMP)).
    + simpl missing. simpl stdout. rewrite <- app_assoc. simpl app.
      f_equal. simpl List.length. lia.
    + reflexivity.
Qed.

Lemma verify_recipe_with_spec (insns DUMP : list string) :
  verify_recipe_with grep insns DUMP
  = match absent_with grep DUMP insns with
    | [] =>
        (["Checking RV32I instruction coverage...";
          "  All RV32I instructions present in dump."], 0)
    | _ :: _ =>
        ("Checking RV32I instruction coverage..."
         :: map missing_line (absent_with grep DUMP insns)
         ++ [("  "
              ++ decimal (Z.of_nat
                            (List.length (absent_with grep DUMP insns)))
              ++ " instruction(s) not found.")%string],
         1)
    end.
Proof.
  unfold verify_recipe_with. rewrite loop_spec_with.
  simpl missing. simpl stdout.
  destruct (absent_with grep DUMP insns) as [|insn l] eqn:E; [reflexivity|].
  destruct (Z.eqb_spec (Z.of_nat (List.length (insn :: l))) 0) as [H0|_].
  - simpl List.length in H0. lia.
  - reflexivity.
Qed.

Lemma verify_recipe_with_status (insns DUMP : list string) :
  snd (verify_recipe_with grep insns DUMP)
  = match absent_with grep DUMP insns with [] => 0 | _ :: _ => 1 end.
Proof.
  rewrite verify_recipe_with_spec.
  now destruct (absent_with grep DUMP insns).
Qed.

Lemma verify_recipe_with_reported (insns DUMP : list string) :
  reported (fst (verify_recipe_with grep insns DUMP))
  = absent_with grep DUMP insns.
Proof.
  rewrite verify_recipe_with_spec.
  destruct (absent_with grep DUMP insns) as [|insn l]; [reflexivity|].
  cbn [fst].
  rewrite reported_header, reported_app, reported_missing_lines.
  now rewrite reported_summary, app_nil_r.
Qed.

Lemma absent_with_In (listing required : list string) (insn : string) :
  In insn (absent_with grep listing required)
  <-> In insn required /\ grep insn listing = false.
Proof.
  unfold absent_with. rewrite filter_In.
  destruct (grep insn listing); simpl; intuition congruence.
Qed.

End AnyGrep.

Lemma absent_with_ext (g g' : string -> list string -> bool)
  (DUMP insns : list string) :
  (forall insn, In insn insns -> g insn DUMP = g' insn DUMP) ->
  absent_with g DUMP insns = absent_with g' DUMP insns.
Proof.
  intros H. unfold absent_with. apply filter_ext_in.
  intros insn Hin. now rewrite (H insn Hin).
Qed.

Lemma absent_posix (DUMP insns : list string) :
  absent_with grep_qE_word DUMP insns = absent DUMP insns.
Proof. reflexivity. Qed.

Lemma verify_recipe_posix (insns DUMP : list string) :
  verify_recipe_with grep_qE_word insns DUMP = verify_recipe insns DUMP.
Proof. reflexivity. Qed.

(** On an ASCII listing the recipe does in every locale what it does in the
    C locale. *)
Lemma absent_in_ascii (word : ascii -> bool) (DUMP insns : list string) :
  posix_on_ascii word -> ascii_listing DUMP ->
  (forall insn, In insn insns -> mnemonic insn) ->
  absent_with (grep_in word) DUMP insns = absent DUMP insns.
Proof.
  intros Hw HD Hm. rewrite <- absent_posix. apply absent_with_ext.
  intros insn Hin. apply (grep_agree word Hw); [|exact HD].
  apply word_only_ascii. now destruct (Hm insn Hin).
Qed.

Lemma verify_recipe_in_ascii (word : ascii -> bool)
  (DUMP insns : list string) :
  posix_on_ascii word -> ascii_listing DUMP ->
  (forall insn, In insn insns -> mnemonic insn) ->
  verify_recipe_in word insns DUMP = verify_recipe insns DUMP.
Proof.
  intros Hw HD Hm. unfold verify_recipe_in.
  change (verify_recipe insns DUMP)
    with (verify_recipe_with grep_qE_word insns DUMP).
  rewrite !verify_recipe_with_spec.
  rewrite (absent_in_ascii word DUMP insns Hw HD Hm). reflexivity.
Qed.

Lemma verify_in_spec (word : ascii -> bool) (listing required : list string) :
  verify_in word listing required
  = {| report_missing := absent_with (grep_in word) listing required;
       report_ok := match absent_with (grep_in word) listing required with
                    | [] => true
                    | _ :: _ => false
                    end |}.
Proof.
  unfold verify_in, verify_recipe_in.
  pose proof (verify_recipe_with_reported (grep_in word) required listing) as R.
  pose proof (verify_recipe_with_status (grep_in word) required listing) as S.
  destruct (verify_recipe_with (grep_in word) required listing) as [out st].
  simpl in R, S. rewrite R, S.
  now destruct (absent_with (grep_in word) listing required).
Qed.

Lemma ascii_listing_app (before DUMP after : list string) :
  ascii_listing before -> ascii_listing DUMP -> ascii_listing after ->
  ascii_listing (before ++ DUMP ++ after).
Proof.
  intros Hb Hd Ha line Hin.
  apply in_app_or in Hin as [Hin|Hin]; [now apply Hb|].
  apply in_app_or in Hin as [Hin|Hin]; [now apply Hd|now apply Ha].
Qed.

Lemma grep_in_C (insn : string) (DUMP : list string) :
  grep_in is_word_char insn DUMP = grep_qE_word insn DUMP.
Proof. reflexivity. Qed.

Lemma grep_in_posix (word : ascii -> bool) (insn : string)
  (DUMP : list string) :
  posix_on_ascii word -> mnemonic insn ->
  grep_in word insn DUMP = true -> grep_qE_word insn DUMP = true.
Proof.
  intros Hw Hm H. apply (grep_present_iff insn DUMP Hm).
  now apply (grep_in_present word Hw).
Qed.

Lemma absent_with_nil (g : string -> list string -> bool)
  (DUMP insns : list string) :
  absent_with g DUMP insns = []
  <-> forall insn, In insn insns -> g insn DUMP = true.
Proof.
  split.
  - intros E insn Hin. destruct (g insn DUMP) eqn:G; [reflexivity|].
    assert (H : In insn (absent_with g DUMP insns))
      by (apply absent_with_In; now split).
    rewrite E in H. destruct H.
  - intros H. destruct (absent_with g DUMP insns) as [|x l] eqn:E;
      [reflexivity|].
    assert (Hx : In x (absent_with g DUMP insns)) by (rewrite E; now left).
    apply absent_with_In in Hx as [Hin Hg].
    rewrite (H x Hin) in Hg. discriminate.
Qed.

(** In an ASCII listing the absent mnemonics are those that are no token of
    any line. *)
Lemma absent_in_ascii_In (word : ascii -> bool) (DUMP : list string)
  (insn : string) :
  posix_on_ascii word -> ascii_listing DUMP ->
  In insn (absent_with (grep_in word) DUMP RV32I_insns)
  <-> In insn RV32I_insns /\ ~ present insn DUMP.
Proof.
  intros Hw HD.
  rewrite (absent_in_ascii word DUMP RV32I_insns Hw HD RV32I_insns_mnemonic).
  rewrite absent_In. split.
  - intros [Hi Hg]. split; [exact Hi|].
    now apply grep_absent_iff; [apply RV32I_insns_mnemonic|].
  - intros [Hi Hp]. split; [exact Hi|].
    now apply grep_absent_iff; [apply RV32I_insns_mnemonic|].
Qed.

(** In every listing a mnemonic that is no token of any line is absent. *)
Lemma absent_in_when_no_token (word : ascii -> bool) (DUMP : list string)
  (insn : string) :
  posix_on_ascii word ->
  In insn RV32I_insns -> ~ present insn DUMP ->
  In insn (absent_with (grep_in word) DUMP RV32I_insns).
Proof.
  intros Hw Hi Hn. apply absent_with_In. split; [exact Hi|].
  destruct (grep_in word insn DUMP) eqn:G; [|reflexivity].
  elim Hn. apply (grep_in_present word Hw); [|exact G].
  now apply RV32I_insns_mnemonic.
Qed.

Lemma sll_is_mnemonic : mnemonic "sll".
Proof. split; [discriminate|reflexivity]. Qed.

Lemma slli_line_ascii : ascii_listing ["slli a0, a1, 3"].
Proof. intros line [<-|[]]. reflexivity. Qed.

(** The class of the caller's locale matters on other than ASCII text: with
    a letter above 127 right before it, [sll] is a token by the C locale's
    class and is not found in a locale where that byte is a letter. *)
Lemma ascii_restriction_is_needed :
  present "sll" [String (ascii_of_N 233) "sll a0, a1, a2"]
  /\ grep_qE_word "sll" [String (ascii_of_N 233) "sll a0, a1, a2"] = true
  /\ grep_in word_high_letters "sll"
       [String (ascii_of_N 233) "sll a0, a1, a2"] = false.
Proof.
  split; [|split; vm_compute; reflexivity].
  apply (grep_present_iff "sll" _ sll_is_mnemonic). vm_compute. reflexivity.
Qed.

(** *** Whole-token matching *)

(** C4.  Whole-token matching, in the locale of the caller ([word], which
    is the C locale's class on ASCII characters).  For a mnemonic (a
    non-empty string of letters, digits and underscores), and for every
    listing: [grep] finds it only if it stands on some line of the listing
    with no word constituent right before or right after it, and if it does
    not stand so, the report for that one mnemonic is [[insn]].  For a
    listing that is ASCII text, this is an equivalence: [grep] succeeds
    exactly when the mnemonic is such a token of some line, and the report
    lists it exactly when it is not.  The word constituents of the C locale
    are the 63 characters of [word_characters].  With [sll] required and the
    single line [slli a0, a1, 3] the report is [missing = [sll]] in every
    locale: the occurrence inside [slli] is not a match. *)
Theorem whole_token_matching (word : ascii -> bool) (insn : string)
  (listing : list string) :
  posix_on_ascii word ->
  mnemonic insn ->
  (grep_in word insn listing = true -> present insn listing)
  /\ (report_missing (verify_in word listing [insn]) = []
      -> present insn listing)
  /\ (~ present insn listing
      -> verify_in word listing [insn]
         = {| report_missing := [insn]; report_ok := false |})
  /\ (ascii_listing listing ->
      (grep_in word insn listing = true <-> present insn listing)
      /\ (report_missing (verify_in word listing [insn]) = []
          <-> present insn listing)
      /\ (report_missing (verify_in word listing [insn]) = [insn]
          <-> ~ present insn listing))
  /\ (forall c : ascii,
        is_word_char c
        = existsb (Ascii.eqb c) (list_ascii_of_string word_characters))
  /\ grep_in is_word_char insn listing = grep_qE_word insn listing
  /\ ~ standalone_token "sll" "slli a0, a1, 3"
  /\ verify_in word ["slli a0, a1, 3"] ["sll"]
     = {| report_missing := ["sll"]; report_ok := false |}
  /\ verify_recipe_in word ["sll"] ["slli a0, a1, 3"]
     = (["Checking RV32I instruction coverage..."; "  MISSING: sll";
         "  1 instruction(s) not found."], 1).
Proof.
  intros Hw Hm.
  pose proof (grep_in_present word Hw insn listing Hm) as Hp.
  assert (Hv : verify_in word listing [insn]
               = if grep_in word insn listing
                 then {| report_missing := []; report_ok := true |}
                 else {| report_missing := [insn]; report_ok := false |}).
  { rewrite verify_in_spec. unfold absent_with. cbn [filter].
    now destruct (grep_in word insn listing). }
  assert (Hsll : grep_in word "sll" ["slli a0, a1, 3"] = false).
  { rewrite (grep_agree word Hw "sll" _ eq_refl slli_line_ascii).
    vm_compute. reflexivity. }
  split; [exact Hp|].
  split.
  { rewrite Hv. destruct (grep_in word insn listing);
      [intros _; now apply Hp|discriminate]. }
  split.
  { intros Hn. rewrite Hv. destruct (grep_in word insn listing);
      [elim Hn; now apply Hp|reflexivity]. }
  split.
  { intros HA.
    assert (Hiff : grep_in word insn listing = true <-> present insn listing).
    { rewrite (grep_agree word Hw insn listing
                 (word_only_ascii insn (proj2 Hm)) HA).
      apply grep_present_iff, Hm. }
    split; [exact Hiff|].
    rewrite Hv, <- Hiff.
    destruct (grep_in word insn listing); cbn [report_missing];
      repeat split; congruence. }
  split; [exact is_word_char_class|].
  split; [reflexivity|].
  split.
  { intros H.
    apply (line_matches_iff "sll" "slli a0, a1, 3" sll_is_mnemonic) in H.
    vm_compute in H. discriminate. }
  split.
  { rewrite verify_in_spec. unfold absent_with. cbn [filter].
    rewrite Hsll. reflexivity. }
  unfold verify_recipe_in. rewrite verify_recipe_with_spec.
  unfold absent_with. cbn [filter]. rewrite Hsll. reflexivity.
Qed.

Lemma whole_token_matching_witness :
  posix_on_ascii word_high_letters
  /\ mnemonic "sll"
  /\ ascii_listing ["slli a0, a1, 3"]
  /\ (grep_in word_high_letters "sll" ["slli a0, a1, 3"] = true
      <-> present "sll" ["slli a0, a1, 3"])
  /\ (report_missing (verify_in word_high_letters ["slli a0, a1, 3"] ["sll"])
      = ["sll"]
      <-> ~ present "sll" ["slli a0, a1, 3"]).
Proof.
  split; [exact posix_on_ascii_high|].
  split; [exact sll_is_mnemonic|].
  split; [exact slli_line_ascii|].
  destruct (whole_token_matching word_high_letters "sll" ["slli a0, a1, 3"]
              posix_on_ascii_high sll_is_mnemonic)
    as (_ & _ & _ & H & _).
  destruct (H slli_line_ascii) as (H1 & _ & H3).
  split; [exact H1|exact H3].
Defined.

(** The recipe with its list, as equations to rewrite with. *)
Lemma verify_instructions_in_unfold (word : ascii -> bool)
  (DUMP : list string) :
  verify_instructions_in word DUMP
  = verify_recipe_with (grep_in word) RV32I_insns DUMP.
Proof. reflexivity. Qed.

Lemma verify_instructions_in_recipe (word : ascii -> bool)
  (DUMP : list string) :
  verify_instructions_in word DUMP = verify_recipe_in word RV32I_insns DUMP.
Proof. reflexivity. Qed.

Lemma verify_instructions_unfold (DUMP : list string) :
  verify_instructions DUMP = verify_recipe RV32I_insns DUMP.
Proof. reflexivity. Qed.

Lemma verify_instructions_in_ascii (word : ascii -> bool)
  (DUMP : list string) :
  posix_on_ascii word -> ascii_listing DUMP ->
  verify_instructions_in word DUMP = verify_instructions DUMP.
Proof.
  intros Hw HD. rewrite verify_instructions_in_recipe.
  rewrite (verify_recipe_in_ascii word DUMP RV32I_insns Hw HD
             RV32I_insns_mnemonic).
  rewrite <- verify_instructions_unfold. reflexivity.
Qed.

(** *** The exit status of the coverage check *)

Lemma add_line_ascii : ascii_listing ["   0:	00a58533	add	a0,a1,a0"].
Proof. intros line [<-|[]]. reflexivity. Qed.

(** C6.  The recipe in the locale of the caller ([word], which is the C
    locale's class on ASCII characters).  For every listing: it exits with
    status 0 or 1; with 1 if some mnemonic of its list is no token of any
    line, and then every such mnemonic has its [MISSING:] line in the
    output; the [MISSING:] lines name the mnemonics [grep] did not find, in
    the order of the list and without repetition, and are followed by their
    number; with none it prints that all instructions are present and exits
    with 0.  For a listing that is ASCII text: the status is not 0 if and
    only if some mnemonic of the list is no token of any line, the mnemonics
    named are exactly those, and when every mnemonic is a token of some line
    the output is the line that all are present and the status 0. *)
Theorem coverage_check_exit (word : ascii -> bool) (DUMP : list string) :
  posix_on_ascii word ->
  ((exists insn, In insn RV32I_insns /\ ~ present insn DUMP)
   -> snd (verify_instructions_in word DUMP) = 1)
  /\ (snd (verify_instructions_in word DUMP) = 0
      \/ snd (verify_instructions_in word DUMP) = 1)
  /\ (forall insn, In insn RV32I_insns -> ~ present insn DUMP ->
        In insn (reported (fst (verify_instructions_in word DUMP)))
        /\ In (missing_line insn) (fst (verify_instructions_in word DUMP)))
  /\ NoDup (reported (fst (verify_instructions_in word DUMP)))
  /\ reported (fst (verify_instructions_in word DUMP))
     = absent_with (grep_in word) DUMP RV32I_insns
  /\ verify_instructions_in word DUMP
     = match absent_with (grep_in word) DUMP RV32I_insns with
       | [] =>
           (["Checking RV32I instruction coverage...";
             "  All RV32I instructions present in dump."], 0)
       | _ :: _ =>
           ("Checking RV32I instruction coverage..."
            :: map missing_line (absent_with (grep_in word) DUMP RV32I_insns)
            ++ [("  "
                 ++ decimal
                      (Z.of_nat
                         (List.length
                            (absent_with (grep_in word) DUMP RV32I_insns)))
                 ++ " instruction(s) not found.")%string],
            1)
       end
  /\ (ascii_listing DUMP ->
      (snd (verify_instructions_in word DUMP) <> 0
       <-> exists insn, In insn RV32I_insns /\ ~ present insn DUMP)
      /\ (forall insn,
            In insn (reported (fst (verify_instructions_in word DUMP)))
            <-> In insn RV32I_insns /\ ~ present insn DUMP)
      /\ ((forall insn, In insn RV32I_insns -> present insn DUMP) ->
          verify_instructions_in word DUMP
          = (["Checking RV32I instruction coverage...";
              "  All RV32I instructions present in dump."], 0))).
Proof.
  intros Hw.
  rewrite !(verify_instructions_in_unfold word DUMP).
  pose proof (verify_recipe_with_spec (grep_in word) RV32I_insns DUMP) as Hspec.
  pose proof (verify_recipe_with_status (grep_in word) RV32I_insns DUMP) as Hst.
  pose proof (verify_recipe_with_reported (grep_in word) RV32I_insns DUMP)
    as Hrep.
  pose proof (absent_in_when_no_token word DUMP) as Hno.
  rewrite Hrep, Hst.
  assert (Hline : forall insn,
            In insn (absent_with (grep_in word) DUMP RV32I_insns) ->
            In (missing_line insn)
              (fst (verify_recipe_with (grep_in word) RV32I_insns DUMP))).
  { intros insn Hin. rewrite Hspec.
    destruct (absent_with (grep_in word) DUMP RV32I_insns) as [|x l] eqn:E;
      [destruct Hin|].
    cbn [fst]. right. apply in_or_app. left. now apply in_map. }
  split.
  { intros (insn & Hi & Hn). specialize (Hno insn Hw Hi Hn).
    now destruct (absent_with (grep_in word) DUMP RV32I_insns). }
  split.
  { destruct (absent_with (grep_in word) DUMP RV32I_insns); [now left|now right]. }
  split.
  { intros insn Hi Hn. specialize (Hno insn Hw Hi Hn). split; [exact Hno|].
    now apply Hline. }
  split.
  { unfold absent_with. apply NoDup_filter, RV32I_insns_NoDup. }
  split; [reflexivity|].
  split; [exact Hspec|].
  intros HD.
  pose proof (fun insn => absent_in_ascii_In word DUMP insn Hw HD) as Hin.
  split; [|split].
  - destruct (absent_with (grep_in word) DUMP RV32I_insns) as [|x l] eqn:E.
    + split; [easy|]. intros (insn & Hi). apply Hin in Hi. destruct Hi.
    + split; [|discriminate]. intros _. exists x. apply Hin. now left.
  - exact Hin.
  - intros Hall. rewrite Hspec.
    destruct (absent_with (grep_in word) DUMP RV32I_insns) as [|x l] eqn:E;
      [reflexivity|].
    assert (Hx : In x (x :: l)) by now left.
    apply Hin in Hx as [Hi Hn]. elim Hn. now apply Hall.
Qed.

(** A listing of one [add]: the 36 other mnemonics are missing. *)
Lemma coverage_check_exit_witness :
  posix_on_ascii word_high_letters
  /\ ascii_listing ["   0:	00a58533	add	a0,a1,a0"]
  /\ snd (verify_instructions_in word_high_letters
            ["   0:	00a58533	add	a0,a1,a0"]) = 1
  /\ (snd (verify_instructions_in word_high_letters
             ["   0:	00a58533	add	a0,a1,a0"]) <> 0
      <-> exists insn,
            In insn RV32I_insns
            /\ ~ present insn ["   0:	00a58533	add	a0,a1,a0"]).
Proof.
  split; [exact posix_on_ascii_high|].
  split; [exact add_line_ascii|].
  destruct (coverage_check_exit word_high_letters
              ["   0:	00a58533	add	a0,a1,a0"] posix_on_ascii_high)
    as (_ & _ & _ & _ & _ & _ & H).
  destruct (H add_line_ascii) as (Hiff & _ & _).
  split; [vm_compute; reflexivity|exact Hiff].
Defined.

(** *** The required mnemonics *)

Lemma one_line_each_ascii :
  ascii_listing
    (map (fun insn => ("  40:	" ++ insn ++ "	a0,a1,a2")%string) RV32I_insns).
Proof.
  intros line. revert line. apply Forall_forall.
  apply Forall_forall. intros line Hin. revert line Hin.
  apply forallb_forall. vm_compute. reflexivity.
Qed.

Lemma one_line_each_present (insn : string) :
  In insn RV32I_insns ->
  present insn
    (map (fun insn => ("  40:	" ++ insn ++ "	a0,a1,a2")%string) RV32I_insns).
Proof.
  intros Hin.
  apply grep_present_iff; [now apply RV32I_insns_mnemonic|].
  revert insn Hin. apply forallb_forall. vm_compute. reflexivity.
Qed.

(** C10.  The list of the recipe is the 37 mnemonics below, in this order;
    [ecall], [ebreak] and [fence] are not in it.  For a listing that is
    ASCII text, in the locale of the caller: the check passes (status 0) if
    and only if each of the 37 stands as a token on some line, so each of
    them is required and nothing else is; a listed mnemonic that is no token
    of any line fails the check and has its [MISSING:] line; the mnemonics
    reported are the listed ones that [grep] does not find, in the order of
    the list (on the empty listing: all 37, in that order, and their
    number); and a listing in which each of the 37 stands as a token passes
    whatever other ASCII lines come before or after. *)
Theorem required_mnemonic_set (word : ascii -> bool) (DUMP : list string) :
  posix_on_ascii word ->
  ascii_listing DUMP ->
  RV32I_insns
  = ["lb"; "lh"; "lw"; "lbu"; "lhu"; "sb"; "sh"; "sw"; "add"; "addi"; "sub";
     "and"; "andi"; "or"; "ori"; "xor"; "xori"; "sll"; "slli"; "srl"; "srli";
     "sra"; "srai"; "slt"; "slti"; "sltu"; "sltiu"; "lui"; "auipc"; "jal";
     "jalr"; "beq"; "bne"; "blt"; "bge"; "bltu"; "bgeu"]
  /\ List.length RV32I_insns = 37%nat
  /\ ~ In "ecall" RV32I_insns
  /\ ~ In "ebreak" RV32I_insns
  /\ ~ In "fence" RV32I_insns
  /\ (snd (verify_instructions_in word DUMP) = 0
      <-> forall insn, In insn RV32I_insns -> present insn DUMP)
  /\ (forall insn, In insn RV32I_insns -> ~ present insn DUMP ->
        snd (verify_instructions_in word DUMP) = 1
        /\ In ("  MISSING: " ++ insn)%string
             (fst (verify_instructions_in word DUMP)))
  /\ reported (fst (verify_instructions_in word DUMP))
     = absent_with (grep_in word) DUMP RV32I_insns
  /\ verify_instructions_in word []
     = (["Checking RV32I instruction coverage...";
         "  MISSING: lb"; "  MISSING: lh"; "  MISSING: lw"; "  MISSING: lbu";
         "  MISSING: lhu"; "  MISSING: sb"; "  MISSING: sh"; "  MISSING: sw";
         "  MISSING: add"; "  MISSING: addi"; "  MISSING: sub";
         "  MISSING: and"; "  MISSING: andi"; "  MISSING: or";
         "  MISSING: ori"; "  MISSING: xor"; "  MISSING: xori";
         "  MISSING: sll"; "  MISSING: slli"; "  MISSING: srl";
         "  MISSING: srli"; "  MISSING: sra"; "  MISSING: srai";
         "  MISSING: slt"; "  MISSING: slti"; "  MISSING: sltu";
         "  MISSING: sltiu"; "  MISSING: lui"; "  MISSING: auipc";
         "  MISSING: jal"; "  MISSING: jalr"; "  MISSING: beq";
         "  MISSING: bne"; "  MISSING: blt"; "  MISSING: bge";
         "  MISSING: bltu"; "  MISSING: bgeu";
         "  37 instruction(s) not found."], 1)
  /\ ((forall insn, In insn RV32I_insns -> present insn DUMP) ->
      verify_instructions_in word DUMP
      = (["Checking RV32I instruction coverage...";
          "  All RV32I instructions present in dump."], 0)
      /\ (forall before after : list string,
            ascii_listing before -> ascii_listing after ->
            verify_instructions_in word (before ++ DUMP ++ after)
            = (["Checking RV32I instruction coverage...";
                "  All RV32I instructions present in dump."], 0))).
Proof.
  intros Hw HD.
  assert (Hpass : forall D, ascii_listing D ->
            (forall insn, In insn RV32I_insns -> present insn D) ->
            verify_instructions_in word D
            = (["Checking RV32I instruction coverage...";
                "  All RV32I instructions present in dump."], 0)).
  { intros D HA Hall. rewrite (verify_instructions_in_ascii word D Hw HA).
    exact (all_present_passes D Hall). }
  pose proof (verify_recipe_with_spec (grep_in word) RV32I_insns DUMP) as Hspec.
  pose proof (verify_recipe_with_status (grep_in word) RV32I_insns DUMP) as Hst.
  pose proof (fun insn => absent_in_ascii_In word DUMP insn Hw HD) as Hin.
  split; [reflexivity|]. split; [reflexivity|].
  split; [apply not_In_by_eqb; reflexivity|].
  split; [apply not_In_by_eqb; reflexivity|].
  split; [apply not_In_by_eqb; reflexivity|].
  split.
  { rewrite verify_instructions_in_unfold, Hst.
    destruct (absent_with (grep_in word) DUMP RV32I_insns) as [|x l] eqn:E.
    - split; [|reflexivity]. intros _ insn Hi.
      destruct (grep_qE_word insn DUMP) eqn:G.
      + now apply grep_present_iff; [apply RV32I_insns_mnemonic|].
      + assert (Hx : In insn []); [|destruct Hx].
        apply Hin. split; [exact Hi|].
        now apply grep_absent_iff; [apply RV32I_insns_mnemonic|].
    - split; [discriminate|]. intros Hall.
      assert (Hx : In x (x :: l)) by now left.
      apply Hin in Hx as [Hi Hn]. elim Hn. now apply Hall. }
  split.
  { intros insn Hi Hn.
    assert (Ha : In insn (absent_with (grep_in word) DUMP RV32I_insns))
      by (apply Hin; now split).
    rewrite !verify_instructions_in_unfold, Hst, Hspec.
    destruct (absent_with (grep_in word) DUMP RV32I_insns) as [|x l] eqn:E;
      [destruct Ha|].
    split; [reflexivity|].
    cbn [fst]. right. apply in_or_app. left.
    apply (in_map missing_line) in Ha. exact Ha. }
  split;
    [rewrite verify_instructions_in_unfold; apply verify_recipe_with_reported|].
  split.
  { vm_compute. reflexivity. }
  intros Hall. split; [now apply Hpass|].
  intros before after Hb Ha. apply Hpass.
  - now apply ascii_listing_app.
  - intros insn Hi. now apply present_app, Hall.
Qed.

(** A listing with one line per required instruction. *)
Lemma required_mnemonic_set_witness :
  posix_on_ascii word_high_letters
  /\ ascii_listing
       (map (fun insn => ("  40:	" ++ insn ++ "	a0,a1,a2")%string)
          RV32I_insns)
  /\ (forall insn, In insn RV32I_insns ->
        present insn
          (map (fun insn => ("  40:	" ++ insn ++ "	a0,a1,a2")%string)
             RV32I_insns))
  /\ verify_instructions_in word_high_letters
       (map (fun insn => ("  40:	" ++ insn ++ "	a0,a1,a2")%string)
          RV32I_insns)
     = (["Checking RV32I instruction coverage...";
         "  All RV32I instructions present in dump."], 0).
Proof.
  split; [exact posix_on_ascii_high|].
  split; [exact one_line_each_ascii|].
  split; [exact one_line_each_present|].
  destruct (required_mnemonic_set word_high_letters _ posix_on_ascii_high
              one_line_each_ascii)
    as (_ & _ & _ & _ & _ & _ & _ & _ & _ & Hv).
  destruct (Hv one_line_each_present) as [Hv0 _].
  exact Hv0.
Defined.

(** *** Tokens are the words of a line *)

(** X9.  In the locale of the caller, [grep] finds a mnemonic in a line
    only if it is one of the words of the line (its maximal runs of letters,
    digits and underscores); for a line that is ASCII text, exactly when it
    is one of them. *)
Theorem matches_are_words (word : ascii -> bool) (insn line : string) :
  posix_on_ascii word ->
  mnemonic insn ->
  (line_matches_in word insn line = true -> In insn (words line))
  /\ (grep_in word insn [line] = true -> In insn (words line))
  /\ (ascii_only line = true ->
      (line_matches_in word insn line = true <-> In insn (words line))
      /\ (grep_in word insn [line] = true <-> In insn (words line))).
Proof.
  intros Hw Hm.
  assert (H1 : line_matches_in word insn line = true -> In insn (words line)).
  { intros H. apply (line_matches_words insn line Hm).
    now apply (match_from_mono word Hw insn line Hm false false). }
  assert (Hg : grep_in word insn [line] = line_matches_in word insn line).
  { unfold grep_in. simpl. apply orb_false_r. }
  split; [exact H1|].
  split; [rewrite Hg; exact H1|].
  intros HA.
  assert (H2 : line_matches_in word insn line = true <-> In insn (words line)).
  { unfold line_matches_in.
    rewrite (match_from_agree word Hw insn line false
               (word_only_ascii insn (proj2 Hm)) HA).
    apply (line_matches_words insn line Hm). }
  split; [exact H2|]. rewrite Hg. exact H2.
Qed.

Lemma matches_are_words_witness :
  posix_on_ascii word_high_letters
  /\ mnemonic "sll"
  /\ ascii_only "  1c:	00b51533	sll	a0,a0,a1" = true
  /\ words "  1c:	00b51533	sll	a0,a0,a1"
     = ["1c"; "00b51533"; "sll"; "a0"; "a0"; "a1"]
  /\ (line_matches_in word_high_letters "sll"
        "  1c:	00b51533	sll	a0,a0,a1" = true
      <-> In "sll" (words "  1c:	00b51533	sll	a0,a0,a1")).
Proof.
  split; [exact posix_on_ascii_high|].
  split; [exact sll_is_mnemonic|].
  split; [reflexivity|].
  split; [reflexivity|].
  destruct (matches_are_words word_high_letters "sll"
              "  1c:	00b51533	sll	a0,a0,a1"
              posix_on_ascii_high sll_is_mnemonic)
    as (_ & _ & H).
  destruct (H eq_refl) as [H2 _]. exact H2.
Defined.

(** X10.  In the locale of the caller, the check passes only if every
    required mnemonic is a word of some line of the listing; for a listing
    that is ASCII text, exactly then, and the mnemonics it reports are the
    required ones that are a word of no line. *)
Theorem check_passes_iff_words (word : ascii -> bool) (DUMP : list string) :
  posix_on_ascii word ->
  (snd (verify_instructions_in word DUMP) = 0
   -> incl RV32I_insns (flat_map words DUMP))
  /\ (ascii_listing DUMP ->
      (snd (verify_instructions_in word DUMP) = 0
       <-> incl RV32I_insns (flat_map words DUMP))
      /\ (forall insn,
            In insn (reported (fst (verify_instructions_in word DUMP)))
            <-> In insn RV32I_insns /\ ~ In insn (flat_map words DUMP))).
Proof.
  intros Hw.
  rewrite !(verify_instructions_in_unfold word DUMP).
  rewrite verify_recipe_with_status, verify_recipe_with_reported.
  assert (H0 : match absent_with (grep_in word) DUMP RV32I_insns with
               | [] => 0
               | _ :: _ => 1
               end = 0
               <-> absent_with (grep_in word) DUMP RV32I_insns = []).
  { destruct (absent_with (grep_in word) DUMP RV32I_insns);
      split; congruence. }
  rewrite H0, absent_with_nil.
  split.
  { intros H insn Hi.
    apply grep_words_iff; [now apply RV32I_insns_mnemonic|].
    apply (grep_in_posix word insn DUMP Hw);
      [now apply RV32I_insns_mnemonic|now apply H]. }
  intros HD.
  assert (Hg : forall insn, In insn RV32I_insns ->
            grep_in word insn DUMP = grep_qE_word insn DUMP).
  { intros insn Hi. apply (grep_agree word Hw); [|exact HD].
    apply word_only_ascii. now destruct (RV32I_insns_mnemonic insn Hi). }
  split.
  - split.
    + intros H insn Hi.
      apply grep_words_iff; [now apply RV32I_insns_mnemonic|].
      rewrite <- (Hg insn Hi). now apply H.
    + intros H insn Hi. rewrite (Hg insn Hi).
      apply grep_words_iff; [now apply RV32I_insns_mnemonic|now apply H].
  - intros insn. rewrite absent_with_In. split.
    + intros [Hi Hf]. split; [exact Hi|]. intros Hin.
      apply (grep_words_iff insn DUMP (RV32I_insns_mnemonic insn Hi)) in Hin.
      rewrite (Hg insn Hi) in Hf. congruence.
    + intros [Hi Hn]. split; [exact Hi|].
      rewrite (Hg insn Hi).
      destruct (grep_qE_word insn DUMP) eqn:G; [|reflexivity].
      elim Hn.
      now apply (grep_words_iff insn DUMP (RV32I_insns_mnemonic insn Hi)).
Qed.

Lemma check_passes_iff_words_witness :
  posix_on_ascii word_high_letters
  /\ ascii_listing ["   0:	00a58533	add	a0,a1,a0"]
  /\ (snd (verify_instructions_in word_high_letters
             ["   0:	00a58533	add	a0,a1,a0"]) = 0
      <-> incl RV32I_insns
            (flat_map words ["   0:	00a58533	add	a0,a1,a0"])).
Proof.
  split; [exact posix_on_ascii_high|].
  split; [exact add_line_ascii|].
  destruct (check_passes_iff_words word_high_letters
              ["   0:	00a58533	add	a0,a1,a0"] posix_on_ascii_high)
    as (_ & H).
  destruct (H add_line_ascii) as [H1 _]. exact H1.
Defined.

End LocaleFacts.
